(** * Peer discovery over a message bus: a model of [disco.py]

    The development follows [src/distributedlock/distributed/disco.py]:
    the observable [PeerList], the bounded queues, and the [Disco] engine
    with its DISCO / REPLY / END loop.  Python objects that are shared by
    reference (the set held by a [PeerList]) live in an explicit store, so
    that what a subscriber is handed can be told apart from a copy.

    The engine's thread is modelled; the two transport workers appear
    through what they do to the queues (the receive worker as the batches
    that arrive between two turns of the poll loop).  The sleeps of the
    loop have no counterpart here.  Messages are taken decoded: the
    inbound queue holds the JSON objects that [json.loads] returns, and
    the text that [json.dumps] writes is a symbolic value. *)

From stdpp Require Import gmap strings list fin_maps.

Open Scope string_scope.
Open Scope list_scope.

(** ** Python values *)

Module Py.

(** [sub in s] on two [str]: [sub] occurs somewhere in [s]. *)
Fixpoint contains (sub s : string) : bool :=
  String.prefix sub s ||
  match s with
  | EmptyString => false
  | String _ rest => contains sub rest
  end.

(** [str.lower()], on the ASCII letters. *)
Definition lower_ascii (c : Ascii.ascii) : Ascii.ascii :=
  let n := Ascii.nat_of_ascii c in
  if (65 <=? n)%nat && (n <=? 90)%nat then Ascii.ascii_of_nat (n + 32) else c.

Fixpoint lower (s : string) : string :=
  match s with
  | EmptyString => EmptyString
  | String c rest => String (lower_ascii c) (lower rest)
  end.

(** Truth value of an attribute that holds [None] or a [str]. *)
Definition truthy (v : option string) : bool :=
  match v with
  | None => false
  | Some s => negb (String.eqb s "")
  end.

(** Keyword values that the engine stores and never reads. *)
Inductive value :=
| VNone
| VBool (b : bool)
| VInt (z : Z)
| VStr (s : string).

End Py.

(** The exceptions of the module, and [KeyError] of a [dict] subscript. *)
Inductive exn :=
| NetworkError
| MissingArgumentError
| DiscoTimeoutError
| UnknownActionError
| KeyError (key : string).

(** How a call ends: it returns, an exception propagates, or it does not
    come back on the input at hand ([put] on a full queue with no reader,
    the poll loop with its end flag unset once the arrivals are used up). *)
Inductive res (A : Type) :=
| Ok (a : A)
| Raise (e : exn)
| Wait.
Arguments Ok {A} a.
Arguments Raise {A} e.
Arguments Wait {A}.

(** A decoded JSON object with string members, as [json.loads] returns it. *)
Abbreviation dict := (gmap string string).

(** A [str] handed to the bus.  The text of [json.dumps d] is kept
    symbolic. *)
Inductive wire :=
| json_dumps (d : dict)
| text (s : string).

(** [str(msg)] of a [str]. *)
Definition str (msg : wire) : wire := msg.

(** ** The store of shared objects *)

Definition loc := nat.

Abbreviation Heap := (gmap loc (gset string)).

(** A subscriber: a callable of two set references.  Its body may mutate
    any set of the store and create sets; it returns normally and does not
    call back into the PeerList. *)
Record Callback := {
  cb_name : string;
  cb_body : loc → loc → Heap → Heap
}.

(** One call of a subscriber: who, with which two references, and what the
    two sets held when the call was made. *)
Record Call := {
  callee : Callback;
  ref_old : loc;
  ref_new : loc;
  seen_old : gset string;
  seen_new : gset string
}.

(** [heap]: the [set] objects by identity.  [calls]: the subscriber calls
    made so far.  [opened]: the bus streams opened so far, with their
    mode. *)
Record Mem := {
  heap : Heap;
  calls : list Call;
  opened : list (string * string)
}.

Definition deref (h : Heap) (l : loc) : gset string := default ∅ (h !! l).

Definition with_heap (h : Heap) (m : Mem) : Mem :=
  {| heap := h; calls := calls m; opened := opened m |}.

(** [set()] and [copy.deepcopy(s)] of a set of strings: a new object. *)
Definition alloc (s : gset string) (m : Mem) : loc * Mem :=
  let l := fresh (dom (heap m)) in
  (l, with_heap (<[l := s]> (heap m)) m).

Definition deepcopy (l : loc) (m : Mem) : loc * Mem :=
  alloc (deref (heap m) l) m.

(** [s.add(x)] and [s.discard(x)]: in place. *)
Definition set_add (l : loc) (x : string) (m : Mem) : Mem :=
  with_heap (<[l := deref (heap m) l ∪ {[x]}]> (heap m)) m.

Definition set_discard (l : loc) (x : string) (m : Mem) : Mem :=
  with_heap (<[l := deref (heap m) l ∖ {[x]}]> (heap m)) m.

(** ** class PeerList *)

Module PeerList.

Record t := {
  _length : nat;
  _state : loc;
  _callbacks : list Callback
}.

(** [PeerList()], l. 95. *)
Definition __init__ (m : Mem) : t * Mem :=
  let '(s, m) := alloc ∅ m in
  ({| _length := 0; _state := s; _callbacks := [] |}, m).

(** [get_state], l. 127: the set itself, not a copy. *)
Definition get_state (self : t) : loc := _state self.

(** [callback(old_state, new_state)], recorded in [calls]. *)
Definition call (callback : Callback) (old_state new_state : loc) (m : Mem) : Mem :=
  {| heap := cb_body callback old_state new_state (heap m);
     calls := calls m ++ [ {| callee := callback;
                              ref_old := old_state;
                              ref_new := new_state;
                              seen_old := deref (heap m) old_state;
                              seen_new := deref (heap m) new_state |} ];
     opened := opened m |}.

(** [_notify], l. 131. *)
Fixpoint for_callback (callbacks : list Callback) (old_state new_state : loc)
    (m : Mem) : Mem :=
  match callbacks with
  | [] => m
  | callback :: rest =>
      for_callback rest old_state new_state (call callback old_state new_state m)
  end.

Definition _notify (self : t) (old_state new_state : loc) (m : Mem) : Mem :=
  for_callback (_callbacks self) old_state new_state m.

Definition with_length (n : nat) (self : t) : t :=
  {| _length := n; _state := _state self; _callbacks := _callbacks self |}.

(** [add_peer], l. 100, and [remove_peer], l. 111. *)
Definition add_peer (peer : string) (self : t) (m : Mem) : t * Mem :=
  let '(old_state, m) := deepcopy (_state self) m in
  let m := set_add (_state self) peer m in
  let self := with_length (size (deref (heap m) (_state self))) self in
  (self, _notify self old_state (get_state self) m).

Definition remove_peer (peer : string) (self : t) (m : Mem) : t * Mem :=
  let '(old_state, m) := deepcopy (_state self) m in
  let m := set_discard (_state self) peer m in
  let self := with_length (size (deref (heap m) (_state self))) self in
  (self, _notify self old_state (get_state self) m).

(** [register_callback], l. 119. *)
Definition register_callback (callback : Callback) (self : t) : t :=
  {| _length := _length self; _state := _state self;
     _callbacks := _callbacks self ++ [callback] |}.

(** [len(peerlist)] *)
Definition __len__ (self : t) : nat := _length self.

(** The identities present: what the live set holds. *)
Definition members (self : t) (m : Mem) : gset string :=
  deref (heap m) (_state self).

(** A sequence of mutating calls. *)
Inductive op :=
| Add (peer : string)
| Remove (peer : string).

Definition step (o : op) (self : t) (m : Mem) : t * Mem :=
  match o with
  | Add peer => add_peer peer self m
  | Remove peer => remove_peer peer self m
  end.

Fixpoint run (ops : list op) (self : t) (m : Mem) : t * Mem :=
  match ops with
  | [] => (self, m)
  | o :: rest => let '(self, m) := step o self m in run rest self m
  end.

(** What the set holds once [o] has mutated it. *)
Definition effect (o : op) (s : gset string) : gset string :=
  match o with
  | Add peer => s ∪ {[peer]}
  | Remove peer => s ∖ {[peer]}
  end.

(** A subscriber that mutates no set of the store (it may create sets of
    its own). *)
Definition passive (callback : Callback) : Prop :=
  ∀ old_state new_state (h : Heap) l,
    is_Some (h !! l) → cb_body callback old_state new_state h !! l = h !! l.

(** What the subscribers are to be told over a sequence of calls that
    starts from the membership [s]: for each call in turn, each subscriber
    in registration order, with the membership before and after. *)
Fixpoint notified (callbacks : list Callback) (ops : list op) (s : gset string)
    : list (Callback * gset string * gset string) :=
  match ops with
  | [] => []
  | o :: rest =>
      map (λ callback, (callback, s, effect o s)) callbacks
        ++ notified callbacks rest (effect o s)
  end.

Definition told (c : Call) : Callback * gset string * gset string :=
  (callee c, seen_old c, seen_new c).

End PeerList.


(** ** queue.Queue(maxsize) *)

Module Queue.

Record t (A : Type) := {
  maxsize : nat;
  items : list A
}.
Arguments maxsize {A} _.
Arguments items {A} _.

Definition new {A} (maxsize : nat) : t A := {| maxsize := maxsize; items := [] |}.

Definition with_items {A} (l : list A) (q : t A) : t A :=
  {| maxsize := maxsize q; items := l |}.

Definition qsize {A} (q : t A) : nat := length (items q).

(** [0 < maxsize <= qsize] *)
Definition full {A} (q : t A) : bool :=
  (0 <? maxsize q)%nat && (maxsize q <=? qsize q)%nat.

Definition empty {A} (q : t A) : bool :=
  match items q with
  | [] => true
  | _ :: _ => false
  end.

(** [put] waits while the queue is full, [get] while it is empty: [None]. *)
Definition put {A} (x : A) (q : t A) : option (t A) :=
  if full q then None else Some (with_items (items q ++ [x]) q).

Definition get {A} (q : t A) : option (A * t A) :=
  match items q with
  | [] => None
  | x :: rest => Some (x, with_items rest q)
  end.

End Queue.

(** ** class Disco *)

Module Disco.

Definition MIN_PEERS : nat := 2.

(** The attributes of an engine.  [_id] is the address that the [Id]
    object holds, [_stream_r] and [_stream_w] the URI of the stream once
    it is open, [_event] whether the shutdown signal is set, [_in_queue]
    the decoded content of the messages received, [__dict__] the
    attributes that come from other keywords. *)
Record t := {
  _auth : bool;
  _broker : option string;
  _read_topic : option string;
  _write_topic : option string;
  _stream_uri_r : option string;
  _stream_uri_w : option string;
  _stream_r : option string;
  _stream_w : option string;
  _in_disco : bool;
  _peerlist : PeerList.t;
  _id : string;
  _in_queue : Queue.t dict;
  _out_queue : Queue.t wire;
  _event : bool;
  _endit : bool;
  __dict__ : list (string * Py.value)
}.

(** The engine and the objects it shares. *)
Record World := {
  self : t;
  mem : Mem
}.

(** *** Assignments to one attribute *)

Definition remake (d : t) (stream_r stream_w : option string) (in_disco : bool)
    (peerlist : PeerList.t) (in_queue : Queue.t dict) (out_queue : Queue.t wire)
    (event endit : bool) : t :=
  {| _auth := _auth d; _broker := _broker d; _read_topic := _read_topic d;
     _write_topic := _write_topic d; _stream_uri_r := _stream_uri_r d;
     _stream_uri_w := _stream_uri_w d; _stream_r := stream_r; _stream_w := stream_w;
     _in_disco := in_disco; _peerlist := peerlist; _id := _id d;
     _in_queue := in_queue; _out_queue := out_queue; _event := event;
     _endit := endit; __dict__ := __dict__ d |}.

Definition set_stream_r (v : option string) (d : t) : t :=
  remake d v (_stream_w d) (_in_disco d) (_peerlist d) (_in_queue d) (_out_queue d)
    (_event d) (_endit d).

Definition set_stream_w (v : option string) (d : t) : t :=
  remake d (_stream_r d) v (_in_disco d) (_peerlist d) (_in_queue d) (_out_queue d)
    (_event d) (_endit d).

Definition set_in_disco (v : bool) (d : t) : t :=
  remake d (_stream_r d) (_stream_w d) v (_peerlist d) (_in_queue d) (_out_queue d)
    (_event d) (_endit d).

Definition set_peerlist (v : PeerList.t) (d : t) : t :=
  remake d (_stream_r d) (_stream_w d) (_in_disco d) v (_in_queue d) (_out_queue d)
    (_event d) (_endit d).

Definition set_in_queue (v : Queue.t dict) (d : t) : t :=
  remake d (_stream_r d) (_stream_w d) (_in_disco d) (_peerlist d) v (_out_queue d)
    (_event d) (_endit d).

Definition set_out_queue (v : Queue.t wire) (d : t) : t :=
  remake d (_stream_r d) (_stream_w d) (_in_disco d) (_peerlist d) (_in_queue d) v
    (_event d) (_endit d).

Definition set_event (v : bool) (d : t) : t :=
  remake d (_stream_r d) (_stream_w d) (_in_disco d) (_peerlist d) (_in_queue d)
    (_out_queue d) v (_endit d).

Definition set_endit (v : bool) (d : t) : t :=
  remake d (_stream_r d) (_stream_w d) (_in_disco d) (_peerlist d) (_in_queue d)
    (_out_queue d) (_event d) v.

(** *** Methods as computations on the world *)

Definition M (A : Type) : Type := World → res A * World.

Definition ret {A} (a : A) : M A := λ w, (Ok a, w).

Definition bind {A B} (c : M A) (k : A → M B) : M B :=
  λ w, match c w with
       | (Ok a, w') => k a w'
       | (Raise e, w') => (Raise e, w')
       | (Wait, w') => (Wait, w')
       end.

Definition raise {A} (e : exn) : M A := λ w, (Raise e, w).

Definition wait {A} : M A := λ w, (Wait, w).

Definition attr {A} (f : t → A) : M A := λ w, (Ok (f (self w)), w).

Definition assign (f : t → t) : M unit :=
  λ w, (Ok tt, {| self := f (self w); mem := mem w |}).

Declare Scope py_scope.
Delimit Scope py_scope with py.
Notation "x <- c ;; k" := (bind c (λ x, k))
  (at level 20, c at level 99, k at level 200, only parsing) : py_scope.
Notation "c ;; k" := (bind c (λ _, k))
  (at level 100, k at level 200, only parsing, right associativity) : py_scope.
Open Scope py_scope.

(** [msg[key]] *)
Definition getitem (msg : dict) (key : string) : M string :=
  match msg !! key with
  | Some v => ret v
  | None => raise (KeyError key)
  end.

(** [self._id.getmyip()], also [whoami()] *)
Definition getmyip : M string := attr _id.

Definition whoami : M string := getmyip.

(** [self._out_queue.put(x)] *)
Definition out_queue_put (x : wire) : M unit :=
  q <- attr _out_queue ;;
  match Queue.put x q with
  | Some q' => assign (set_out_queue q')
  | None => wait
  end.

(** [produce], l. 296. *)
Definition produce (msg : wire) : M unit :=
  is_set <- attr _event ;;
  q <- attr _out_queue ;;
  if negb is_set && negb (Queue.full q)
  then out_queue_put (str msg)
  else ret tt.

(** [reply], l. 282. *)
Definition reply : M unit :=
  reply_ <- getmyip ;;
  source <- getmyip ;;
  let rply : dict := <["action" := "REPLY"]> (<["reply" := reply_]> (<["source" := source]> ∅)) in
  produce (json_dumps rply).

(** [end], l. 291. *)
Definition end_ : M unit :=
  source <- getmyip ;;
  let endrply : dict := <["action" := "END"]> (<["source" := source]> ∅) in
  produce (json_dumps endrply).

(** [shutdown], l. 309. *)
Definition shutdown : M unit :=
  assign (set_endit true) ;;
  assign (set_event true).

(** [self._peerlist.add_peer(peer)] *)
Definition peerlist_add_peer (peer : string) : M unit :=
  λ w, let '(pl, m) := PeerList.add_peer peer (_peerlist (self w)) (mem w) in
       (Ok tt, {| self := set_peerlist pl (self w); mem := m |}).

(** [get_peerlist()]: the reference to the live set. *)
Definition get_peerlist : M loc := attr (λ d, PeerList.get_state (_peerlist d)).

(** How the body of the [for] leaves: on to the next message ([continue]
    or the end of the body), or out of the loop ([break]). *)
Inductive flow :=
| Next
| Break.

(** The body of [for message in self.consume()], l. 262 to 280, on the
    decoded content [msg] of the message. *)
Definition on_message (msg : dict) : M flow :=
  action <- getitem msg "action" ;;
  if Py.contains "END" action then
    shutdown ;; ret Break
  else
    me <- getmyip ;;
    source <- getitem msg "source" ;;
    if String.eqb me source then
      ret Next
    else
      action <- getitem msg "action" ;;
      if Py.contains "DISCO" action then
        assign (set_in_disco true) ;;
        reply ;;
        ret Next
      else
        action <- getitem msg "action" ;;
        if Py.contains "REPLY" action then
          peer <- getitem msg "reply" ;;
          peerlist_add_peer peer ;;
          n <- attr (λ d, PeerList.__len__ (_peerlist d)) ;;
          if (MIN_PEERS <=? n)%nat then end_ ;; ret Next else ret Next
        else
          raise UnknownActionError.

(** [for message in self.consume()]: [consume] takes the messages off the
    inbound queue one at a time, until the queue is empty or the loop is
    left; [pending] is what the queue holds. *)
Fixpoint for_message (pending : list dict) : M unit :=
  match pending with
  | [] => ret tt
  | message :: rest =>
      assign (λ d, set_in_queue (Queue.with_items rest (_in_queue d)) d) ;;
      fl <- on_message message ;;
      match fl with
      | Break => ret tt
      | Next => for_message rest
      end
  end.

Definition for_message_in_consume : M unit :=
  q <- attr _in_queue ;;
  for_message (Queue.items q).

(** What the receive worker has put on the inbound queue by the time the
    engine wakes up.  The worker waits for room and the engine drains the
    queue meanwhile: the engine sees the batch whole and in order. *)
Definition _recv (batch : list dict) : M unit :=
  assign (λ d, set_in_queue (Queue.with_items (Queue.items (_in_queue d) ++ batch) (_in_queue d)) d).

(** [poll], l. 254: one element of [arrivals] for each turn of the
    [while] loop, the messages that came in during its sleep.  With the
    end flag unset and no arrival left the loop has not returned. *)
Fixpoint poll (arrivals : list (list dict)) : M unit :=
  λ w, if _endit (self w) then (Ok tt, w)
       else match arrivals with
            | [] => (Wait, w)
            | batch :: later =>
                (_recv batch ;; for_message_in_consume ;; poll later) w
            end.

(** [discovery], l. 245. *)
Definition discovery (arrivals : list (list dict)) : M unit :=
  in_disco <- attr _in_disco ;;
  (if negb in_disco then
     assign (set_in_disco true) ;;
     source <- getmyip ;;
     let discorply : dict := <["action" := "DISCO"]> (<["source" := source]> ∅) in
     produce (json_dumps discorply)
   else ret tt) ;;
  poll arrivals.

(** *** Construction *)

(** The keywords of a construction: the four that the engine reads,
    and [others], any further keyword.  A key of [others] is not the name
    of an attribute that [__init__] sets ([kwargs_ok]). *)
Record kwargs := {
  broker : option string;
  read_topic : option string;
  write_topic : option string;
  auth : option bool;
  others : list (string * Py.value)
}.

Definition attributes : list string :=
  ["me"; "auth"; "broker"; "read_topic"; "write_topic"; "stream_uri_r";
   "stream_uri_w"; "stream_r"; "stream_w"; "in_disco"; "peerlist"; "id";
   "executor"; "thrds"; "in_queue"; "out_queue"; "event"; "endit"].

Definition kwargs_ok (kw : kwargs) : bool :=
  forallb (λ kv, negb (existsb (String.eqb (fst kv)) attributes)) (others kw).

(** The two conditionals that compute the stream URIs, l. 184 and
    l. 190. *)
Definition stream_uri_r (broker read_topic : string) : string :=
  if Py.contains "kafka://" (Py.lower broker)
  then "kafka://" +:+ broker +:+ "/" +:+ read_topic
  else "kafka://" +:+ broker +:+ "/" +:+ read_topic.

Definition stream_uri_w (broker write_topic : string) : string :=
  if Py.contains "kafka" (Py.lower broker)
  then "kafka://" +:+ broker +:+ "/" +:+ write_topic
  else "kafka://" +:+ broker +:+ "/" +:+ write_topic.

(** [Disco.__init__], l. 156, from the keywords [kw]; [getmyip] is the
    address that [lock.getmyip()] resolves.  The PeerList is created
    first, the broker is tested next, the identity is taken last. *)
Definition __init__ (kw : kwargs) (getmyip : string) (m : Mem) : res t * Mem :=
  let '(peerlist, m) := PeerList.__init__ m in
  match broker kw with
  | Some b =>
      if Py.truthy (Some b) then
        let uri_r :=
          match read_topic kw with
          | Some topic =>
              if Py.truthy (Some topic) then Some (stream_uri_r b topic) else None
          | None => None
          end in
        let uri_w :=
          match write_topic kw with
          | Some topic =>
              if Py.truthy (Some topic) then Some (stream_uri_w b topic) else None
          | None => None
          end in
        (Ok {| _auth := default true (auth kw);
               _broker := broker kw;
               _read_topic := read_topic kw;
               _write_topic := write_topic kw;
               _stream_uri_r := uri_r;
               _stream_uri_w := uri_w;
               _stream_r := None;
               _stream_w := None;
               _in_disco := false;
               _peerlist := peerlist;
               _id := getmyip;
               _in_queue := Queue.new 15;
               _out_queue := Queue.new 15;
               _event := false;
               _endit := false;
               __dict__ := map (λ kv, ("_" +:+ fst kv, snd kv)) (others kw) |}, m)
      else (Raise MissingArgumentError, m)
  | None => (Raise MissingArgumentError, m)
  end.

(** The two [Stream(...).open] of [__enter__], l. 203 to 211. *)
Definition open_streams : M unit :=
  λ w,
    let d := self w in
    let m := mem w in
    let '(d, m) :=
      match _stream_uri_r d with
      | Some uri =>
          if Py.truthy (Some uri)
          then (set_stream_r (Some uri) d,
                {| heap := heap m; calls := calls m; opened := opened m ++ [(uri, "r")] |})
          else (d, m)
      | None => (d, m)
      end in
    let '(d, m) :=
      match _stream_uri_w d with
      | Some uri =>
          if Py.truthy (Some uri)
          then (set_stream_w (Some uri) d,
                {| heap := heap m; calls := calls m; opened := opened m ++ [(uri, "w")] |})
          else (d, m)
      | None => (d, m)
      end in
    (Ok tt, {| self := d; mem := m |}).

(** The identities the engine has discovered. *)
Definition peers (w : World) : gset string :=
  PeerList.members (_peerlist (self w)) (mem w).

End Disco.

(** ** Where the methods leave the world *)

Module After.

Import Disco.

(** The text "kafka://" + broker + "/" + topic. *)
Definition kafka_uri (broker topic : string) : string :=
  "kafka://" +:+ broker +:+ "/" +:+ topic.

(** The END message of the node [source], as [end()] writes it. *)
Definition END_from (source : string) : wire :=
  json_dumps (<["action" := "END"]> (<["source" := source]> ∅)).

(** [msg] at the tail of the outbound queue, the rest as it was. *)
Definition enqueued (msg : wire) (w : World) : World :=
  {| self := set_out_queue
               (Queue.with_items (Queue.items (_out_queue (self w)) ++ [msg])
                                 (_out_queue (self w)))
               (self w);
     mem := mem w |}.

(** Both termination flags set, the rest as it was. *)
Definition stopped (w : World) : World :=
  {| self := set_event true (set_endit true (self w)); mem := mem w |}.

(** The inbound queue holding [pending], the rest as it was. *)
Definition holding (pending : list dict) (w : World) : World :=
  {| self := set_in_queue (Queue.with_items pending (_in_queue (self w))) (self w);
     mem := mem w |}.

(** [w'] has the PeerList, the shared objects and the identity of [w]. *)
Definition same_peers (w w' : World) : Prop :=
  _peerlist (self w') = _peerlist (self w)
  ∧ mem w' = mem w
  ∧ _id (self w') = _id (self w).

(** No subscriber on the engine's PeerList: [__init__] registers none and
    no method of the engine does. *)
Definition no_subscribers (w : World) : Prop :=
  PeerList._callbacks (_peerlist (self w)) = [].

(** [msg] is a REPLY of [reply_] that comes from [source]. *)
Definition is_reply (msg : dict) (source reply_ : string) : Prop :=
  msg !! "action" = Some "REPLY"
  ∧ msg !! "source" = Some source
  ∧ msg !! "reply" = Some reply_.

(** [msg] names [me] as the peer to add though it comes from another
    source.  [reply()] sends the same address in both fields. *)
Definition names_me (me : string) (msg : dict) : Prop :=
  msg !! "reply" = Some me ∧ msg !! "source" ≠ Some me.

(** Where a REPLY that names [peer] leaves an engine without subscribers:
    the peer added and, with at least [MIN_PEERS] peers then, the END
    message queued if [produce] takes it. *)
Definition replied (peer : string) (w : World) : World :=
  if (MIN_PEERS <=? size (peers w ∪ {[peer]}))%nat
     && (negb (_event (self w)) && negb (Queue.full (_out_queue (self w))))
  then enqueued (END_from (_id (self w))) (peerlist_add_peer peer w).2
  else (peerlist_add_peer peer w).2.

End After.

(** ** Scenarios *)

Module Scenario.

Import Disco.

Definition m0 : Mem := {| heap := ∅; calls := []; opened := [] |}.

(** A subscriber that only looks, and one that adds a name to the set it
    is handed as the new state. *)
Definition watcher : Callback :=
  {| cb_name := "watcher"; cb_body := λ _ _ h, h |}.

Definition writer : Callback :=
  {| cb_name := "writer";
     cb_body := λ _ new_state h, <[new_state := deref h new_state ∪ {["X"]}]> h |}.

(** Messages as the peers send them. *)
Definition message (action source : string) : dict :=
  <["action" := action]> (<["source" := source]> ∅).

Definition reply_message (source reply_ : string) : dict :=
  <["action" := "REPLY"]> (<["reply" := reply_]> (<["source" := source]> ∅)).

(** Node "A" on the operations topic, as the module's main program
    constructs it, here with one more keyword. *)
Definition keywords (more : list (string * Py.value)) : kwargs :=
  {| broker := Some "kafka.scimma.org";
     read_topic := Some "snews.operations";
     write_topic := Some "snews.operations";
     auth := None;
     others := more |}.

Definition engine (more : list (string * Py.value)) : World :=
  let '(peerlist, m) := PeerList.__init__ m0 in
  {| self := {| _auth := true;
                _broker := Some "kafka.scimma.org";
                _read_topic := Some "snews.operations";
                _write_topic := Some "snews.operations";
                _stream_uri_r := Some "kafka://kafka.scimma.org/snews.operations";
                _stream_uri_w := Some "kafka://kafka.scimma.org/snews.operations";
                _stream_r := None;
                _stream_w := None;
                _in_disco := false;
                _peerlist := peerlist;
                _id := "A";
                _in_queue := Queue.new 15;
                _out_queue := Queue.new 15;
                _event := false;
                _endit := false;
                __dict__ := map (λ kv, ("_" +:+ fst kv, snd kv)) more |};
     mem := m |}.

End Scenario.

(** ** Subscribers by identity *)

Module Subscribers.

(** Python compares callables by identity; [cb_name] stands for the
    identity of the callable. *)
Definition same (a b : Callback) : bool := String.eqb (cb_name a) (cb_name b).

(** [l.remove(x)]: the first element equal to [x] goes; [None] stands for
    the [ValueError] of a list without one. *)
Fixpoint list_remove (x : Callback) (l : list Callback) : option (list Callback) :=
  match l with
  | [] => None
  | c :: rest =>
      if same c x then Some rest
      else match list_remove x rest with
           | Some rest' => Some (c :: rest')
           | None => None
           end
  end.

(** [deregister_callback], l. 123. *)
Definition deregister_callback (callback : Callback) (self : PeerList.t)
    : option PeerList.t :=
  match list_remove callback (PeerList._callbacks self) with
  | Some l => Some {| PeerList._length := PeerList._length self;
                      PeerList._state := PeerList._state self;
                      PeerList._callbacks := l |}
  | None => None
  end.

End Subscribers.

(** ** The messages of the handshake and where they leave the world *)

Module Handshake.

Import Disco After.

(** The DISCO and the REPLY of the node [me], as [discovery] and [reply]
    write them. *)
Definition DISCO_dict (me : string) : dict :=
  <["action" := "DISCO"]> (<["source" := me]> ∅).

Definition REPLY_dict (me : string) : dict :=
  <["action" := "REPLY"]> (<["reply" := me]> (<["source" := me]> ∅)).

Definition DISCO_from (me : string) : wire := json_dumps (DISCO_dict me).

Definition REPLY_from (me : string) : wire := json_dumps (REPLY_dict me).

(** [produce] would take a message: no shutdown signal, room on the
    outbound queue. *)
Definition can_produce (w : World) : bool :=
  negb (_event (self w)) && negb (Queue.full (_out_queue (self w))).

(** The in-discovery flag set, the rest as it was. *)
Definition in_discovery (w : World) : World :=
  {| self := set_in_disco true (self w); mem := mem w |}.

(** Where a DISCO from another node leaves the engine. *)
Definition answered (w : World) : World :=
  if can_produce w
  then enqueued (REPLY_from (_id (self w))) (in_discovery w)
  else in_discovery w.

(** Where the first statements of [discovery] leave an engine that has not
    announced itself yet. *)
Definition announced (w : World) : World :=
  if can_produce w
  then enqueued (DISCO_from (_id (self w))) (in_discovery w)
  else in_discovery w.

(** Where a REPLY that names [peer] leaves the engine, whatever its
    subscribers. *)
Definition counted (peer : string) (w : World) : World :=
  if (MIN_PEERS <=? PeerList.__len__
                      (_peerlist (self (peerlist_add_peer peer w).2)))%nat
  then (end_ (peerlist_add_peer peer w).2).2
  else (peerlist_add_peer peer w).2.

(** The attributes that are set at construction and read afterwards. *)
Definition same_configuration (w w' : World) : Prop :=
  _id (self w') = _id (self w)
  ∧ _auth (self w') = _auth (self w)
  ∧ _broker (self w') = _broker (self w)
  ∧ _read_topic (self w') = _read_topic (self w)
  ∧ _write_topic (self w') = _write_topic (self w)
  ∧ _stream_uri_r (self w') = _stream_uri_r (self w)
  ∧ _stream_uri_w (self w') = _stream_uri_w (self w)
  ∧ _stream_r (self w') = _stream_r (self w)
  ∧ _stream_w (self w') = _stream_w (self w)
  ∧ __dict__ (self w') = __dict__ (self w)
  ∧ Queue.maxsize (_in_queue (self w')) = Queue.maxsize (_in_queue (self w))
  ∧ Queue.maxsize (_out_queue (self w')) = Queue.maxsize (_out_queue (self w))
  ∧ PeerList._state (_peerlist (self w')) = PeerList._state (_peerlist (self w))
  ∧ PeerList._callbacks (_peerlist (self w')) = PeerList._callbacks (_peerlist (self w)).

(** A node as [__init__] constructs it on the operations topic, with the
    address [ip]. *)
Definition node (ip : string) : World :=
  let '(peerlist, m) := PeerList.__init__ Scenario.m0 in
  {| self := {| _auth := true;
                _broker := Some "kafka.scimma.org";
                _read_topic := Some "snews.operations";
                _write_topic := Some "snews.operations";
                _stream_uri_r := Some "kafka://kafka.scimma.org/snews.operations";
                _stream_uri_w := Some "kafka://kafka.scimma.org/snews.operations";
                _stream_r := None;
                _stream_w := None;
                _in_disco := false;
                _peerlist := peerlist;
                _id := ip;
                _in_queue := Queue.new 15;
                _out_queue := Queue.new 15;
                _event := false;
                _endit := false;
                __dict__ := [] |};
     mem := m |}.

End Handshake.

(** ** Entering the scope, and the send worker *)

Module Scope.

Import Disco.

(** [while not self._event.is_set(): self.discovery()], l. 219: one
    element of [rounds] for each call of [discovery], the arrivals of its
    poll loop. *)
Fixpoint enter_loop (rounds : list (list (list dict))) : M unit :=
  λ w, if _event (self w) then (Ok tt, w)
       else match rounds with
            | [] => (Wait, w)
            | arrivals :: later => (discovery arrivals ;; enter_loop later) w
            end.

(** [__enter__], l. 202: the streams are opened, then the loop runs.  The
    start-up sleep has no counterpart here, and the two workers appear as
    the arrivals. *)
Definition __enter__ (rounds : list (list (list dict))) : M unit :=
  open_streams ;; enter_loop rounds.

(** How a run outside the poll loop ends when nothing else touches the
    engine: it returns, it waits on the empty queue, or a method is called
    on a stream attribute that holds [None]. *)
Inductive ending :=
| Returns
| Waits
| AttributeError.

(** [_send], l. 232: while the shutdown signal is unset, take one message
    off the outbound queue and write it to the write stream.  [pending] is
    what the queue holds, [written] what has gone to the stream. *)
Fixpoint send_loop (pending : list wire) (d : Disco.t) (written : list wire)
    : ending * Disco.t * list wire :=
  if _event d then (Returns, d, written)
  else match pending with
       | [] => (Waits, d, written)
       | msg :: rest =>
           let d := set_out_queue (Queue.with_items rest (_out_queue d)) d in
           match _stream_w d with
           | None => (AttributeError, d, written)
           | Some _ => send_loop rest d (written ++ [msg])
           end
       end.

Definition _send (d : Disco.t) : ending * Disco.t * list wire :=
  send_loop (Queue.items (_out_queue d)) d [].

(** [__exit__], l. 224, once [__enter__] has returned: the read stream is
    closed, then the write stream, then the shutdown signal is set.  The
    result lists the streams closed.  Joining the workers has no
    counterpart here. *)
Definition __exit__ (d : Disco.t) : ending * Disco.t * list string :=
  match _stream_r d with
  | None => (AttributeError, d, [])
  | Some r =>
      match _stream_w d with
      | None => (AttributeError, d, [r])
      | Some w => (Returns, set_event true d, [r; w])
      end
  end.

End Scope.

(** ** main.py: the configuration from the environment, and the monitor *)

Module Main.

(** [main], l. 39 to 54: the host and the peers that the environment
    names.  [None] stands for the [False] that [MYHOSTURI] starts with. *)
Definition read_environment (environ : gmap string string)
    : option string * list string :=
  let MYHOSTURI := environ !! "HOSTURI" in
  let peers : list string := [] in
  let peers :=
    match environ !! "PEERA_URI" with Some uri => peers ++ [uri] | None => peers end in
  let peers :=
    match environ !! "PEERB_URI" with Some uri => peers ++ [uri] | None => peers end in
  let peers :=
    match environ !! "PEERC_URI" with Some uri => peers ++ [uri] | None => peers end in
  (MYHOSTURI, peers).

(** The two assertions, l. 57 and 58, and what is handed to [runlock]. *)
Inductive start :=
| AssertionError
| Runs (mynode : string) (peerlist : list string).

Definition configuration (environ : gmap string string) : start :=
  match read_environment environ with
  | (None, _) => AssertionError
  | (Some mynode, peers) =>
      if (0 <? length peers)%nat then Runs mynode peers else AssertionError
  end.

(** The monitor, l. 63 to 76, over the successive values read from
    [leader.value]; [statedesc] is the table of [lock.py].  The result is
    what is logged: the state and its description.  A state that the table
    does not have raises, which ends the loop. *)
Fixpoint monitor (statedesc : Z → option string) (readings : list Z)
    (LASTSTATE : option Z) : list (Z * string) :=
  match readings with
  | [] => []
  | status :: later =>
      if bool_decide (LASTSTATE ≠ Some status) then
        match statedesc status with
        | Some description =>
            (status, description) :: monitor statedesc later (Some status)
        | None => []
        end
      else monitor statedesc later LASTSTATE
  end.

End Main.

(** * Properties *)

Arguments PeerList.add_peer : simpl never.
Arguments PeerList.remove_peer : simpl never.
Arguments Disco.peerlist_add_peer : simpl never.
Arguments Disco.produce : simpl never.
Arguments Disco.reply : simpl never.
Arguments Disco.end_ : simpl never.
Arguments Disco.on_message : simpl never.

(** Unfolds the plumbing of a computation. *)
Ltac run :=
  repeat (progress (unfold Disco.bind, Disco.ret, Disco.raise, Disco.wait,
                      Disco.attr, Disco.assign, Disco.getmyip; cbn)).

(** ** The store *)

Section Store.

Implicit Types (m : Mem) (h : Heap) (l : loc) (s : gset string).

Lemma alloc_fresh s m : heap m !! (alloc s m).1 = None.
Proof.
  unfold alloc; simpl. apply not_elem_of_dom, is_fresh.
Qed.

Lemma alloc_lookup s m : heap (alloc s m).2 !! (alloc s m).1 = Some s.
Proof.
  unfold alloc; simpl. apply lookup_insert_eq.
Qed.

Lemma alloc_other s m l :
  is_Some (heap m !! l) → heap (alloc s m).2 !! l = heap m !! l.
Proof.
  intros Hl. unfold alloc; simpl. apply lookup_insert_ne.
  intros <-. rewrite (proj1 (not_elem_of_dom _ _) (is_fresh (dom (heap m)))) in Hl.
  by destruct Hl.
Qed.

Lemma deref_set_add l x m :
  deref (heap (set_add l x m)) l = deref (heap m) l ∪ {[x]}.
Proof.
  unfold set_add, deref; simpl. by rewrite lookup_insert_eq.
Qed.

Lemma deref_set_discard l x m :
  deref (heap (set_discard l x m)) l = deref (heap m) l ∖ {[x]}.
Proof.
  unfold set_discard, deref; simpl. by rewrite lookup_insert_eq.
Qed.

(** The copy holds what the original does, and the original is in place. *)
Lemma deref_deepcopy l m :
  deref (heap (deepcopy l m).2) l = deref (heap m) l.
Proof.
  unfold deepcopy, alloc, deref; simpl.
  destruct (decide (fresh (dom (heap m)) = l)) as [->|Hne].
  - by rewrite lookup_insert_eq.
  - by rewrite lookup_insert_ne.
Qed.

End Store.

(** ** PeerList *)

Section PeerListFacts.

Import PeerList.

Implicit Types (m : Mem) (pl : PeerList.t) (callbacks : list Callback).

(** Whatever the subscribers do, [_notify] calls each of them once, in
    registration order, with the two references it was given. *)
Lemma for_callback_calls callbacks old_state new_state m :
  ∃ new,
    calls (for_callback callbacks old_state new_state m) = calls m ++ new
    ∧ map callee new = callbacks
    ∧ Forall (λ c, ref_old c = old_state ∧ ref_new c = new_state) new
    ∧ opened (for_callback callbacks old_state new_state m) = opened m.
Proof.
  revert m. induction callbacks as [|cb rest IH]; intros m; simpl.
  - exists []. by rewrite app_nil_r.
  - destruct (IH (call cb old_state new_state m)) as (new & Hc & Hm & Hf & Ho).
    eexists (_ :: new). rewrite Hc, Ho. simpl. rewrite <- app_assoc. simpl.
    split; [reflexivity|]. split; [by rewrite Hm|]. split; [|done].
    constructor; [by simpl|done].
Qed.

(** Passive subscribers leave the sets as they are and see, each of them,
    what the two sets hold when [_notify] starts. *)
Lemma for_callback_passive callbacks old_state new_state m :
  Forall passive callbacks →
  is_Some (heap m !! old_state) →
  is_Some (heap m !! new_state) →
  (∀ l, is_Some (heap m !! l) →
        heap (for_callback callbacks old_state new_state m) !! l = heap m !! l)
  ∧ calls (for_callback callbacks old_state new_state m)
    = calls m ++ map (λ cb, {| callee := cb; ref_old := old_state;
                               ref_new := new_state;
                               seen_old := deref (heap m) old_state;
                               seen_new := deref (heap m) new_state |}) callbacks.
Proof.
  intros Hp. revert m. induction Hp as [|cb rest Hcb _ IH]; intros m Ho Hn; simpl.
  - split; [done|]. by rewrite app_nil_r.
  - assert (Hkeep : ∀ l, is_Some (heap m !! l) →
              heap (call cb old_state new_state m) !! l = heap m !! l).
    { intros l Hl. simpl. by apply Hcb. }
    destruct (IH (call cb old_state new_state m)) as [Hh Hc].
    { by rewrite Hkeep. }
    { by rewrite Hkeep. }
    split.
    + intros l Hl. rewrite Hh; [by apply Hkeep|]. by rewrite Hkeep.
    + rewrite Hc. unfold deref. rewrite !Hkeep by done.
      simpl. by rewrite <- app_assoc.
Qed.

(** One mutating call, with passive subscribers. *)
Lemma step_passive o pl m :
  is_Some (heap m !! _state pl) →
  Forall passive (_callbacks pl) →
  _state (step o pl m).1 = _state pl
  ∧ _callbacks (step o pl m).1 = _callbacks pl
  ∧ members (step o pl m).1 (step o pl m).2 = effect o (members pl m)
  ∧ _length (step o pl m).1 = size (effect o (members pl m))
  ∧ is_Some (heap (step o pl m).2 !! _state pl)
  ∧ ∃ old_state,
      heap m !! old_state = None
      ∧ calls (step o pl m).2
        = calls m ++ map (λ cb, {| callee := cb; ref_old := old_state;
                                   ref_new := _state pl;
                                   seen_old := members pl m;
                                   seen_new := effect o (members pl m) |})
                         (_callbacks pl).
Proof.
  intros Hlive Hp.
  pose proof (alloc_fresh (deref (heap m) (_state pl)) m) as Hfresh.
  pose proof (alloc_lookup (deref (heap m) (_state pl)) m) as Hcopy.
  assert (Hne : (alloc (deref (heap m) (_state pl)) m).1 ≠ _state pl).
  { intros Heq. rewrite Heq in Hfresh. rewrite Hfresh in Hlive. by destruct Hlive. }
  destruct o as [peer|peer]; unfold step, add_peer, remove_peer, deepcopy, members;
    destruct (alloc (deref (heap m) (_state pl)) m) as [old_state m1] eqn:Ea;
    simpl in Hfresh, Hcopy, Hne; simpl.
  - set (m2 := set_add (_state pl) peer m1).
    assert (Hsame : deref (heap m1) (_state pl) = deref (heap m) (_state pl)).
    { change m1 with (old_state, m1).2. rewrite <- Ea. apply deref_deepcopy. }
    assert (Hm2 : deref (heap m2) (_state pl) = deref (heap m) (_state pl) ∪ {[peer]}).
    { unfold m2. by rewrite deref_set_add, Hsame. }
    assert (Hold2 : heap m2 !! old_state = Some (deref (heap m) (_state pl))).
    { unfold m2, set_add; simpl. by rewrite lookup_insert_ne. }
    assert (Hlive2 : is_Some (heap m2 !! _state pl)).
    { unfold m2, set_add; simpl. rewrite lookup_insert_eq. by eexists. }
    destruct (for_callback_passive (_callbacks pl) old_state (_state pl) m2)
      as [Hh Hc]; [done|by eexists|done|].
    unfold _notify, get_state; simpl.
    split; [done|]. split; [done|].
    split. { unfold deref at 1. rewrite Hh by done. apply Hm2. }
    split. { by rewrite <- Hm2. }
    split. { by rewrite Hh. }
    exists old_state. split; [done|].
    rewrite Hc. f_equal.
    { unfold m2, set_add, with_heap; simpl.
      change m1 with (old_state, m1).2. rewrite <- Ea. reflexivity. }
    apply map_ext; intros cb. f_equal; [|done].
    unfold deref at 1. by rewrite Hold2.
  - set (m2 := set_discard (_state pl) peer m1).
    assert (Hsame : deref (heap m1) (_state pl) = deref (heap m) (_state pl)).
    { change m1 with (old_state, m1).2. rewrite <- Ea. apply deref_deepcopy. }
    assert (Hm2 : deref (heap m2) (_state pl) = deref (heap m) (_state pl) ∖ {[peer]}).
    { unfold m2. by rewrite deref_set_discard, Hsame. }
    assert (Hold2 : heap m2 !! old_state = Some (deref (heap m) (_state pl))).
    { unfold m2, set_discard; simpl. by rewrite lookup_insert_ne. }
    assert (Hlive2 : is_Some (heap m2 !! _state pl)).
    { unfold m2, set_discard; simpl. rewrite lookup_insert_eq. by eexists. }
    destruct (for_callback_passive (_callbacks pl) old_state (_state pl) m2)
      as [Hh Hc]; [done|by eexists|done|].
    unfold _notify, get_state; simpl.
    split; [done|]. split; [done|].
    split. { unfold deref at 1. rewrite Hh by done. apply Hm2. }
    split. { by rewrite <- Hm2. }
    split. { by rewrite Hh. }
    exists old_state. split; [done|].
    rewrite Hc. f_equal.
    { unfold m2, set_discard, with_heap; simpl.
      change m1 with (old_state, m1).2. rewrite <- Ea. reflexivity. }
    apply map_ext; intros cb. f_equal; [|done].
    unfold deref at 1. by rewrite Hold2.
Qed.

End PeerListFacts.

Section PeerListSequences.

Import PeerList.

(** C6 (as amended).  Over any sequence of [add_peer] and [remove_peer]
    calls on a PeerList whose subscribers mutate no set, [len] equals the
    number of identities present, the membership is what the calls make
    it, and every call invokes every registered subscriber exactly once,
    in registration order, with the membership before and after the
    mutation: the before state as a copy (a reference other than the live
    set), the after state as the live set itself ([get_state]), not a
    copy. *)
Theorem peerlist_size_and_notifications (ops : list op) (pl : PeerList.t) (m : Mem) :
  is_Some (heap m !! _state pl) →
  _length pl = size (members pl m) →
  Forall passive (_callbacks pl) →
  __len__ (run ops pl m).1 = size (members (run ops pl m).1 (run ops pl m).2)
  ∧ members (run ops pl m).1 (run ops pl m).2
    = foldl (λ s o, effect o s) (members pl m) ops
  ∧ ∃ new,
      calls (run ops pl m).2 = calls m ++ new
      ∧ map told new = notified (_callbacks pl) ops (members pl m)
      ∧ Forall (λ c, ref_new c = get_state pl ∧ ref_old c ≠ get_state pl) new.
Proof.
  revert pl m. induction ops as [|o rest IH]; intros pl m Hlive Hlen Hp.
  - simpl. split; [done|]. split; [done|].
    exists []. by rewrite app_nil_r.
  - destruct (step_passive o pl m Hlive Hp)
      as (Hst & Hcb & Hmem & Hlen1 & Hlive1 & old_state & Hfresh & Hcalls).
    simpl. destruct (step o pl m) as [pl1 m1] eqn:Es. simpl in *.
    destruct (IH pl1 m1) as (Hl & Hm & new & Hc & Ht & Hr).
    { by rewrite Hst. }
    { by rewrite Hlen1, Hmem. }
    { by rewrite Hcb. }
    split; [done|]. split. { by rewrite Hm, Hmem. }
    eexists (_ ++ new). rewrite Hc, Hcalls, <- app_assoc.
    split; [reflexivity|]. split.
    + rewrite map_app, Ht, Hcb, Hmem. f_equal.
      by rewrite map_map.
    + apply Forall_app. split.
      * apply Forall_map, Forall_true. intros cb; simpl.
        split; [done|]. unfold get_state. intros Heq. rewrite Heq in Hfresh.
        rewrite Hfresh in Hlive. by destruct Hlive.
      * unfold get_state in *. by rewrite <- Hst.
Qed.

Lemma peerlist_size_and_notifications_witness :
  let pl := register_callback Scenario.watcher (PeerList.__init__ Scenario.m0).1 in
  let m := (PeerList.__init__ Scenario.m0).2 in
  let ops := [Add "B"; Add "C"; Add "B"; Remove "B"] in
  is_Some (heap m !! _state pl)
  ∧ _length pl = size (members pl m)
  ∧ Forall passive (_callbacks pl)
  ∧ __len__ (run ops pl m).1 = size (members (run ops pl m).1 (run ops pl m).2)
  ∧ members (run ops pl m).1 (run ops pl m).2
    = foldl (λ s o, effect o s) (members pl m) ops.
Proof.
  intros pl m ops.
  assert (H1 : is_Some (heap m !! _state pl)) by (by eexists).
  assert (H2 : _length pl = size (members pl m)) by reflexivity.
  assert (H3 : Forall passive (_callbacks pl)).
  { repeat constructor. }
  split; [exact H1|]. split; [exact H2|]. split; [exact H3|].
  destruct (peerlist_size_and_notifications ops pl m H1 H2 H3) as (Ha & Hb & _).
  split; [exact Ha|exact Hb].
Defined.

(** C6, as stated, fails: the subscriber is handed the live set as the new
    state.  With a subscriber that adds a name to it, one [add_peer "B"]
    leaves two identities in the PeerList and [len] at 1. *)
Lemma peerlist_new_state_is_live_set :
  let pl := register_callback Scenario.writer (PeerList.__init__ Scenario.m0).1 in
  let m := (PeerList.__init__ Scenario.m0).2 in
  let r := add_peer "B" pl m in
  map ref_new (calls r.2) = [get_state r.1]
  ∧ members r.1 r.2 = {["B"; "X"]}
  ∧ __len__ r.1 = 1
  ∧ size (members r.1 r.2) = 2.
Proof.
  vm_compute. repeat split; reflexivity.
Qed.

End PeerListSequences.

(** ** The engine *)

Section Engine.

Import Disco After.

Implicit Types (w : World) (msg : dict) (d : Disco.t).

Lemma world_eta w : {| self := self w; mem := mem w |} = w.
Proof. by destruct w. Qed.

Lemma set_endit_id d : _endit d = true → set_endit true d = d.
Proof. destruct d; simpl; by intros ->. Qed.

Lemma set_event_id d : _event d = true → set_event true d = d.
Proof. destruct d; simpl; by intros ->. Qed.

Lemma stopped_id w :
  _endit (self w) = true → _event (self w) = true → stopped w = w.
Proof.
  intros He Hv. unfold stopped. rewrite (set_endit_id _ He), (set_event_id _ Hv).
  apply world_eta.
Qed.

Lemma shutdown_eq w : shutdown w = (Ok tt, stopped w).
Proof. reflexivity. Qed.

(** [produce] returns, with the message queued or the world as it was. *)
Lemma produce_eq (x : wire) w :
  produce x w
  = (Ok tt, if negb (_event (self w)) && negb (Queue.full (_out_queue (self w)))
            then enqueued x w else w).
Proof.
  unfold produce, out_queue_put, Queue.put, str. run.
  destruct (_event (self w)); simpl; [done|].
  destruct (Queue.full (_out_queue (self w))) eqn:E; simpl; rewrite ?E; done.
Qed.

Lemma end_eq w :
  end_ w
  = (Ok tt, if negb (_event (self w)) && negb (Queue.full (_out_queue (self w)))
            then enqueued (END_from (_id (self w))) w else w).
Proof.
  unfold end_. run. apply produce_eq.
Qed.

Lemma Queue_full_15 {A} (q : Queue.t A) :
  Queue.maxsize q = 15 → Queue.full q = false ↔ Queue.qsize q < 15.
Proof.
  intros Hmax. unfold Queue.full. rewrite Hmax.
  destruct (Nat.leb_spec 15 (Queue.qsize q)); split; intros; (done || lia).
Qed.

(** *** One message *)

Lemma on_message_END msg a w :
  msg !! "action" = Some a →
  Py.contains "END" a = true →
  on_message msg w = (Ok Break, stopped w).
Proof.
  intros Ha He. unfold on_message, getitem. rewrite Ha. run. by rewrite He.
Qed.

Lemma on_message_self msg a w :
  msg !! "action" = Some a →
  Py.contains "END" a = false →
  msg !! "source" = Some (_id (self w)) →
  on_message msg w = (Ok Next, w).
Proof.
  intros Ha He Hs. unfold on_message, getitem. rewrite Ha, Hs. run.
  by rewrite He, String.eqb_refl.
Qed.

Lemma on_message_unknown msg a source w :
  msg !! "action" = Some a →
  Py.contains "END" a = false →
  Py.contains "DISCO" a = false →
  Py.contains "REPLY" a = false →
  msg !! "source" = Some source →
  source ≠ _id (self w) →
  on_message msg w = (Raise UnknownActionError, w).
Proof.
  intros Ha He Hd Hr Hs Hne. unfold on_message, getitem. rewrite Ha, Hs. run.
  rewrite He, Hd, Hr.
  destruct (String.eqb_spec (_id (self w)) source) as [Heq|_]; [by subst|done].
Qed.

(** *** The loops *)

Lemma for_message_cons msg rest w :
  for_message (msg :: rest) w
  = match on_message msg (holding rest w) with
    | (Ok Next, w') => for_message rest w'
    | (Ok Break, w') => (Ok tt, w')
    | (Raise e, w') => (Raise e, w')
    | (Wait, w') => (Wait, w')
    end.
Proof.
  simpl. unfold bind at 1. unfold assign at 1. unfold bind at 1.
  fold (holding rest w).
  destruct (on_message msg (holding rest w)) as [[[]|e|] w']; reflexivity.
Qed.

Lemma poll_stopped arrivals w :
  _endit (self w) = true → poll arrivals w = (Ok tt, w).
Proof.
  intros He. destruct arrivals; simpl; by rewrite He.
Qed.

Lemma poll_nil w :
  _endit (self w) = false → poll [] w = (Wait, w).
Proof.
  intros He. simpl. by rewrite He.
Qed.

Lemma poll_cons batch later w :
  _endit (self w) = false →
  poll (batch :: later) w
  = bind (for_message (Queue.items (_in_queue (self w)) ++ batch)) (λ _, poll later)
         (holding (Queue.items (_in_queue (self w)) ++ batch) w).
Proof.
  intros He. simpl. rewrite He.
  unfold _recv, for_message_in_consume. reflexivity.
Qed.

(** [poll] returns only with the end flag set. *)
Lemma poll_returns_stopped arrivals w w' :
  poll arrivals w = (Ok tt, w') → _endit (self w') = true.
Proof.
  revert w. induction arrivals as [|batch later IH]; intros w;
    destruct (_endit (self w)) eqn:He.
  - rewrite poll_stopped by done. by intros [= <-].
  - by rewrite poll_nil.
  - rewrite poll_stopped by done. by intros [= <-].
  - rewrite poll_cons by done. unfold bind.
    destruct (for_message (Queue.items (_in_queue (self w)) ++ batch)
                (holding (Queue.items (_in_queue (self w)) ++ batch) w))
      as [[[]|e|] w1]; [apply IH|done..].
Qed.

Lemma holding_holding pending pending' w :
  holding pending (holding pending' w) = holding pending w.
Proof. reflexivity. Qed.

End Engine.

(** ** produce *)

Section Produce.

Import Disco After.

(** C3.  On an engine whose outbound queue has capacity 15, [produce]
    always returns normally (no exception, no wait on the queue).  It puts
    the message at the tail of the outbound queue if and only if the
    shutdown signal is not set and the queue holds fewer than 15 messages;
    in every other case it leaves the world, the queue with it, as it
    was. *)
Theorem produce_enqueues_iff (x : wire) (w : World) :
  Queue.maxsize (_out_queue (self w)) = 15 →
  (produce x w).1 = Ok tt
  ∧ (Queue.items (_out_queue (self (produce x w).2))
       = Queue.items (_out_queue (self w)) ++ [x]
     ↔ _event (self w) = false ∧ Queue.qsize (_out_queue (self w)) < 15)
  ∧ (_event (self w) = false ∧ Queue.qsize (_out_queue (self w)) < 15 →
     (produce x w).2 = enqueued x w)
  ∧ (¬ (_event (self w) = false ∧ Queue.qsize (_out_queue (self w)) < 15) →
     (produce x w).2 = w).
Proof.
  intros Hmax. rewrite produce_eq. simpl.
  pose proof (Queue_full_15 (_out_queue (self w)) Hmax) as Hfull.
  destruct (_event (self w)); simpl.
  - split; [done|]. split; [|split; [by intros [? _]|done]].
    split; [|by intros [? _]].
    intros Heq. apply (f_equal length) in Heq. rewrite length_app in Heq.
    simpl in Heq. lia.
  - destruct (Queue.full (_out_queue (self w))) eqn:E; simpl.
    + assert (Hn : ¬ Queue.qsize (_out_queue (self w)) < 15).
      { intros Hlt. apply Hfull in Hlt. congruence. }
      split; [done|]. split; [|split; [by intros [_ ?]|done]].
      split; [|by intros [_ ?]].
      intros Heq. apply (f_equal length) in Heq. rewrite length_app in Heq.
      simpl in Heq. lia.
    + assert (Hlt : Queue.qsize (_out_queue (self w)) < 15) by by apply Hfull.
      split; [done|]. split; [done|]. split; [done|].
      intros Hn. destruct Hn. done.
Qed.

Lemma produce_enqueues_iff_witness :
  Queue.maxsize (_out_queue (self (Scenario.engine []))) = 15
  ∧ (produce (text "hello") (Scenario.engine [])).1 = Ok tt
  ∧ Queue.items (_out_queue (self (produce (text "hello") (Scenario.engine [])).2))
    = [text "hello"].
Proof.
  split; [reflexivity|].
  destruct (produce_enqueues_iff (text "hello") (Scenario.engine []) eq_refl)
    as (Hok & Hiff & _).
  split; [exact Hok|].
  apply Hiff. split; [reflexivity|]. vm_compute. lia.
Defined.

End Produce.

(** ** Shutdown and the END message *)

Section Shutdown.

Import Disco After.

(** C5.  Shutdown is idempotent.  On an engine whose end flag and shutdown
    signal are set, handling an END message raises nothing and leaves the
    world as it is (both flags set, PeerList and queues untouched), so
    does a further [shutdown], and [poll] returns at once; and from any
    world, [shutdown] after [shutdown] is [shutdown]. *)
Theorem shutdown_idempotent (msg : dict) (arrivals : list (list dict)) (w : World) :
  msg !! "action" = Some "END" →
  _endit (self w) = true →
  _event (self w) = true →
  on_message msg w = (Ok Break, w)
  ∧ shutdown w = (Ok tt, w)
  ∧ poll arrivals w = (Ok tt, w)
  ∧ ∀ w0, shutdown (shutdown w0).2 = shutdown w0.
Proof.
  intros Ha He Hv. split; [|split; [|split]].
  - rewrite (on_message_END msg "END" w Ha eq_refl). by rewrite stopped_id.
  - rewrite shutdown_eq. by rewrite stopped_id.
  - by apply poll_stopped.
  - intros w0. rewrite !shutdown_eq. simpl. f_equal.
Qed.

Lemma shutdown_idempotent_witness :
  let w := (shutdown (Scenario.engine [])).2 in
  let msg := Scenario.message "END" "B" in
  msg !! "action" = Some "END"
  ∧ _endit (self w) = true
  ∧ _event (self w) = true
  ∧ on_message msg w = (Ok Break, w).
Proof.
  intros w msg.
  assert (Ha : msg !! "action" = Some "END") by reflexivity.
  split; [exact Ha|]. split; [reflexivity|]. split; [reflexivity|].
  exact (proj1 (shutdown_idempotent msg [] w Ha eq_refl eq_refl)).
Defined.

(** C9.  The END test comes before the test of the source: an END message
    whose source is the engine's own identity sets both termination flags
    and leaves the [for] loop, and [poll] returns with the messages behind
    it still queued.  The same message with an action that has no END in
    it is skipped without any change. *)
Theorem own_END_halts (msg : dict) (batch rest : list dict)
    (later : list (list dict)) (w : World) :
  msg !! "action" = Some "END" →
  msg !! "source" = Some (_id (self w)) →
  on_message msg w = (Ok Break, stopped w)
  ∧ (_endit (self w) = false →
     Queue.items (_in_queue (self w)) ++ batch = msg :: rest →
     poll (batch :: later) w = (Ok tt, stopped (holding rest w)))
  ∧ (∀ a, Py.contains "END" a = false →
          on_message (<["action" := a]> msg) w = (Ok Next, w)).
Proof.
  intros Ha Hs. split; [|split].
  - by apply (on_message_END msg "END").
  - intros He Hq. rewrite poll_cons by done. rewrite Hq.
    unfold bind. rewrite for_message_cons, holding_holding.
    rewrite (on_message_END msg "END") by done.
    by apply poll_stopped.
  - intros a Hn. apply (on_message_self _ a); [apply lookup_insert_eq|done|].
    by rewrite lookup_insert_ne.
Qed.

Lemma own_END_halts_witness :
  let w := Scenario.engine [] in
  let msg := Scenario.message "END" "A" in
  let rest := [Scenario.reply_message "B" "B"] in
  msg !! "action" = Some "END"
  ∧ msg !! "source" = Some (_id (self w))
  ∧ poll [msg :: rest] w = (Ok tt, stopped (holding rest w)).
Proof.
  intros w msg rest.
  assert (Ha : msg !! "action" = Some "END") by reflexivity.
  assert (Hs : msg !! "source" = Some (_id (self w))) by reflexivity.
  split; [exact Ha|]. split; [exact Hs|].
  destruct (own_END_halts msg (msg :: rest) rest [] w Ha Hs) as (_ & Hpoll & _).
  apply Hpoll; reflexivity.
Defined.

End Shutdown.

(** ** Unknown actions *)

Section UnknownAction.

Import Disco After.

(** C4 (as amended).  A message from another source whose action has none
    of END, DISCO and REPLY in it raises [UnknownActionError]; the error
    propagates out of [poll], and the messages behind it are left on the
    inbound queue, unprocessed. *)
Theorem unknown_action_raises (msg : dict) (a source : string)
    (batch rest : list dict) (later : list (list dict)) (w : World) :
  msg !! "action" = Some a →
  Py.contains "END" a = false →
  Py.contains "DISCO" a = false →
  Py.contains "REPLY" a = false →
  msg !! "source" = Some source →
  source ≠ _id (self w) →
  on_message msg w = (Raise UnknownActionError, w)
  ∧ (_endit (self w) = false →
     Queue.items (_in_queue (self w)) ++ batch = msg :: rest →
     poll (batch :: later) w = (Raise UnknownActionError, holding rest w)).
Proof.
  intros Ha He Hd Hr Hs Hne. split.
  - by apply (on_message_unknown msg a source).
  - intros Hrun Hq. rewrite poll_cons by done. rewrite Hq.
    unfold bind. rewrite for_message_cons, holding_holding.
    by rewrite (on_message_unknown msg a source).
Qed.

Lemma unknown_action_raises_witness :
  let w := Scenario.engine [] in
  let msg := Scenario.message "PING" "B" in
  let rest := [Scenario.reply_message "C" "C"] in
  msg !! "action" = Some "PING"
  ∧ msg !! "source" = Some "B"
  ∧ "B" ≠ _id (self w)
  ∧ poll [msg :: rest] w = (Raise UnknownActionError, holding rest w).
Proof.
  intros w msg rest.
  assert (Ha : msg !! "action" = Some "PING") by reflexivity.
  assert (Hs : msg !! "source" = Some "B") by reflexivity.
  assert (Hne : "B" ≠ _id (self w)) by discriminate.
  split; [exact Ha|]. split; [exact Hs|]. split; [exact Hne|].
  destruct (unknown_action_raises msg "PING" "B" (msg :: rest) rest [] w
              Ha eq_refl eq_refl eq_refl Hs Hne) as [_ Hpoll].
  apply Hpoll; reflexivity.
Defined.

(** C4, as stated, fails: a message with the action "FOO" and the engine's
    own identity as source is skipped.  Nothing is raised, and the loop
    goes on to the REPLY behind it. *)
Lemma unknown_action_from_self_is_skipped :
  let w := Scenario.engine [] in
  on_message (Scenario.message "FOO" "A") w = (Ok Next, w)
  ∧ (poll [[Scenario.message "FOO" "A"; Scenario.reply_message "B" "B"]] w).1 = Wait
  ∧ peers (poll [[Scenario.message "FOO" "A"; Scenario.reply_message "B" "B"]] w).2
    = {["B"]}.
Proof.
  vm_compute. repeat split; reflexivity.
Qed.

End UnknownAction.

(** ** What a message does to the PeerList *)

Section Peers.

Import Disco After.

Implicit Types (w : World) (msg : dict).

Lemma same_peers_refl w : same_peers w w.
Proof. done. Qed.

Lemma same_peers_trans w1 w2 w3 :
  same_peers w1 w2 → same_peers w2 w3 → same_peers w1 w3.
Proof.
  intros (Hp & Hm & Hi) (Hp' & Hm' & Hi'). unfold same_peers.
  by rewrite Hp', Hm', Hi'.
Qed.

Lemma same_peers_peers w w' : same_peers w w' → peers w' = peers w.
Proof.
  intros (Hp & Hm & _). unfold peers. by rewrite Hp, Hm.
Qed.

Lemma same_peers_stopped w : same_peers w (stopped w).
Proof. done. Qed.

Lemma same_peers_holding pending w : same_peers w (holding pending w).
Proof. done. Qed.

Lemma same_peers_produce (x : wire) w : same_peers w (produce x w).2.
Proof.
  rewrite produce_eq. simpl.
  by destruct (negb (_event (self w)) && negb (Queue.full (_out_queue (self w)))).
Qed.

Lemma same_peers_end w : same_peers w (end_ w).2.
Proof.
  rewrite end_eq. simpl.
  by destruct (negb (_event (self w)) && negb (Queue.full (_out_queue (self w)))).
Qed.

Lemma reply_ok w : ∃ w', reply w = (Ok tt, w') ∧ same_peers w w'.
Proof.
  unfold reply. run. rewrite produce_eq. eexists; split; [reflexivity|].
  by destruct (negb (_event (self w)) && negb (Queue.full (_out_queue (self w)))).
Qed.

Lemma peerlist_add_peer_ok peer w : (peerlist_add_peer peer w).1 = Ok tt.
Proof.
  unfold peerlist_add_peer.
  by destruct (PeerList.add_peer peer (_peerlist (self w)) (mem w)).
Qed.

(** Adding a peer on a PeerList without subscribers. *)
Lemma add_peer_no_subscribers peer w :
  no_subscribers w →
  peerlist_add_peer peer w = (Ok tt, (peerlist_add_peer peer w).2)
  ∧ peers (peerlist_add_peer peer w).2 = peers w ∪ {[peer]}
  ∧ PeerList.__len__ (_peerlist (self (peerlist_add_peer peer w).2))
    = size (peers w ∪ {[peer]})
  ∧ no_subscribers (peerlist_add_peer peer w).2
  ∧ self (peerlist_add_peer peer w).2
    = set_peerlist (_peerlist (self (peerlist_add_peer peer w).2)) (self w).
Proof.
  intros Hno. unfold no_subscribers in Hno.
  assert (Hm : deref (heap (set_add (PeerList._state (_peerlist (self w))) peer
                 (deepcopy (PeerList._state (_peerlist (self w))) (mem w)).2))
                 (PeerList._state (_peerlist (self w)))
               = peers w ∪ {[peer]}).
  { by rewrite deref_set_add, deref_deepcopy. }
  unfold peerlist_add_peer, PeerList.add_peer, PeerList._notify, peers,
    PeerList.members, no_subscribers.
  destruct (deepcopy (PeerList._state (_peerlist (self w))) (mem w))
    as [old_state m1] eqn:Ed.
  simpl in *. rewrite Hno. simpl.
  split; [done|]. split; [done|]. split; [by rewrite Hm|]. done.
Qed.

(** A message either leaves the PeerList alone, or it comes from another
    source and its [reply] member is added. *)
Lemma on_message_peers msg w :
  same_peers w (on_message msg w).2
  ∨ ∃ source peer,
      msg !! "source" = Some source
      ∧ source ≠ _id (self w)
      ∧ msg !! "reply" = Some peer
      ∧ same_peers (peerlist_add_peer peer w).2 (on_message msg w).2.
Proof.
  unfold on_message, getitem.
  destruct (msg !! "action") as [a|]; [|by left].
  run. destruct (Py.contains "END" a); [by left|].
  destruct (msg !! "source") as [source|] eqn:Hs; [|by left].
  run. destruct (String.eqb_spec (_id (self w)) source) as [Heq|Hne]; [by left|].
  run. destruct (Py.contains "DISCO" a).
  - left. unfold reply. run. rewrite produce_eq. simpl.
    by destruct (negb (_event (self w)) && negb (Queue.full (_out_queue (self w)))).
  - destruct (Py.contains "REPLY" a); [|by left].
    destruct (msg !! "reply") as [peer|] eqn:Hr; [|by left].
    right. exists source, peer. split; [done|]. split; [done|]. split; [done|].
    pose proof (peerlist_add_peer_ok peer w) as Hok.
    destruct (peerlist_add_peer peer w) as [r w1]. simpl in Hok. subst r. run.
    match goal with |- context [if ?c then _ else _] => destruct c end; [|done].
    rewrite end_eq. simpl.
    by destruct (negb (_event (self w1)) && negb (Queue.full (_out_queue (self w1)))).
Qed.

Lemma on_message_from_self msg w :
  msg !! "source" = Some (_id (self w)) → same_peers w (on_message msg w).2.
Proof.
  intros Hs. destruct (on_message_peers msg w) as [H|(source & peer & Hs' & Hne & _)];
    [done|]. congruence.
Qed.

End Peers.

Section Invariant.

Import Disco After.

Implicit Types (w : World) (msg : dict).

Lemma peerlist_add_peer_self peer w :
  self (peerlist_add_peer peer w).2
  = set_peerlist (_peerlist (self (peerlist_add_peer peer w).2)) (self w).
Proof.
  unfold peerlist_add_peer.
  by destruct (PeerList.add_peer peer (_peerlist (self w)) (mem w)).
Qed.

(** What a REPLY from another source does. *)
Lemma on_message_reply msg source peer w :
  is_reply msg source peer →
  source ≠ _id (self w) →
  on_message msg w
  = (Ok Next,
     if (MIN_PEERS <=? PeerList.__len__
                         (_peerlist (self (peerlist_add_peer peer w).2)))%nat
     then (end_ (peerlist_add_peer peer w).2).2
     else (peerlist_add_peer peer w).2).
Proof.
  intros (Ha & Hs & Hr) Hne. unfold on_message, getitem. rewrite Ha, Hs, Hr. run.
  destruct (String.eqb_spec (_id (self w)) source) as [Heq|_]; [by subst|].
  run.
  pose proof (peerlist_add_peer_ok peer w) as Hok.
  destruct (peerlist_add_peer peer w) as [r w1]. simpl in Hok. subst r. run.
  match goal with |- context [if ?c then _ else _] => destruct c end; [|done].
  rewrite end_eq. reflexivity.
Qed.

(** No message touches the inbound queue. *)
Lemma on_message_in_queue msg w :
  _in_queue (self (on_message msg w).2) = _in_queue (self w).
Proof.
  unfold on_message, getitem.
  destruct (msg !! "action") as [a|]; [|done].
  run. destruct (Py.contains "END" a); [done|].
  destruct (msg !! "source") as [source|]; [|done].
  run. destruct (_id (self w) =? source)%string; [done|].
  run. destruct (Py.contains "DISCO" a).
  - unfold reply. run. rewrite produce_eq. simpl.
    by destruct (negb (_event (self w)) && negb (Queue.full (_out_queue (self w)))).
  - destruct (Py.contains "REPLY" a); [|done].
    destruct (msg !! "reply") as [peer|]; [|done]. run.
    pose proof (peerlist_add_peer_ok peer w) as Hok.
    pose proof (peerlist_add_peer_self peer w) as Hself.
    destruct (peerlist_add_peer peer w) as [r w1]. simpl in Hok, Hself. subst r. run.
    assert (Hq : _in_queue (self w1) = _in_queue (self w)) by by rewrite Hself.
    match goal with |- context [if ?c then _ else _] => destruct c end; [|done].
    rewrite end_eq. simpl.
    by destruct (negb (_event (self w1)) && negb (Queue.full (_out_queue (self w1)))).
Qed.

(** The invariant: no subscriber, and the engine's identity is not a
    peer. *)
Lemma on_message_keeps_me_out msg w :
  no_subscribers w →
  _id (self w) ∉ peers w →
  ¬ names_me (_id (self w)) msg →
  no_subscribers (on_message msg w).2
  ∧ _id (self (on_message msg w).2) = _id (self w)
  ∧ _id (self w) ∉ peers (on_message msg w).2.
Proof.
  intros Hno Hout Hmsg.
  destruct (on_message_peers msg w)
    as [(Hp & Hm & Hi)|(source & peer & Hs & Hne & Hr & (Hp & Hm & Hi))].
  - unfold no_subscribers, peers in *. by rewrite Hp, Hm.
  - destruct (add_peer_no_subscribers peer w Hno) as (_ & Hpeers & _ & Hno1 & Hself).
    assert (Hpeer : peer ≠ _id (self w)).
    { intros ->. apply Hmsg. split; [done|]. rewrite Hs. congruence. }
    unfold no_subscribers, peers in *. rewrite Hp, Hm, Hi.
    split; [done|]. split; [by rewrite Hself|].
    rewrite Hpeers, elem_of_union, elem_of_singleton. by intros [?|?].
Qed.

Lemma for_message_keeps_me_out pending w :
  no_subscribers w →
  _id (self w) ∉ peers w →
  Forall (λ msg, ¬ names_me (_id (self w)) msg) pending →
  (Queue.items (_in_queue (self w)) `suffix_of` pending) →
  no_subscribers (for_message pending w).2
  ∧ _id (self (for_message pending w).2) = _id (self w)
  ∧ (_id (self w) ∉ peers (for_message pending w).2)
  ∧ (Queue.items (_in_queue (self (for_message pending w).2)) `suffix_of` pending).
Proof.
  revert w. induction pending as [|msg rest IH]; intros w Hno Hout Hall Hsuf.
  - done.
  - apply Forall_cons in Hall as [Hmsg Hrest].
    rewrite for_message_cons.
    destruct (on_message_keeps_me_out msg (holding rest w)) as (Hno1 & Hid1 & Hout1);
      [done..|].
    pose proof (on_message_in_queue msg (holding rest w)) as Hq.
    destruct (on_message msg (holding rest w)) as [[[]|e|] w'];
      simpl in Hno1, Hid1, Hout1, Hq; simpl.
    + destruct (IH w') as (Hno2 & Hid2 & Hout2 & Hsuf2).
      { done. }
      { by rewrite Hid1. }
      { by rewrite Hid1. }
      { by rewrite Hq. }
      split; [done|]. split; [by rewrite Hid2|]. split; [by rewrite <- Hid1|].
      by apply suffix_cons_r.
    + repeat split; try done. rewrite Hq. simpl. by apply suffix_cons_r.
    + repeat split; try done. rewrite Hq. simpl. by apply suffix_cons_r.
    + repeat split; try done. rewrite Hq. simpl. by apply suffix_cons_r.
Qed.

Lemma Forall_suffix {A} (P : A → Prop) (l k : list A) :
  (l `suffix_of` k) → Forall P k → Forall P l.
Proof.
  intros [pre ->] H. by apply Forall_app in H as [_ ?].
Qed.

Lemma poll_keeps_me_out arrivals w :
  no_subscribers w →
  _id (self w) ∉ peers w →
  Forall (λ msg, ¬ names_me (_id (self w)) msg)
         (Queue.items (_in_queue (self w)) ++ concat arrivals) →
  no_subscribers (poll arrivals w).2
  ∧ _id (self (poll arrivals w).2) = _id (self w)
  ∧ _id (self w) ∉ peers (poll arrivals w).2.
Proof.
  revert w. induction arrivals as [|batch later IH]; intros w Hno Hout Hall.
  - by destruct (_endit (self w)) eqn:He; [rewrite poll_stopped|rewrite poll_nil].
  - destruct (_endit (self w)) eqn:He; [by rewrite poll_stopped|].
    rewrite poll_cons by done. simpl in Hall. rewrite app_assoc in Hall.
    apply Forall_app in Hall as [Hnow Hlater].
    destruct (for_message_keeps_me_out
                (Queue.items (_in_queue (self w)) ++ batch)
                (holding (Queue.items (_in_queue (self w)) ++ batch) w))
      as (Hno1 & Hid1 & Hout1 & Hsuf1); [done..|].
    unfold bind.
    destruct (for_message (Queue.items (_in_queue (self w)) ++ batch)
                (holding (Queue.items (_in_queue (self w)) ++ batch) w))
      as [[[]|e|] w'];
      simpl in Hno1, Hid1, Hout1, Hsuf1; [|done..].
    destruct (IH w') as (Hno2 & Hid2 & Hout2).
    { done. }
    { by rewrite Hid1. }
    { rewrite Hid1. apply Forall_app. split; [|done].
      by apply (Forall_suffix _ _ _ Hsuf1). }
    split; [done|]. split; [by rewrite Hid2|]. by rewrite <- Hid1.
Qed.

End Invariant.

(** ** Self-identity and the PeerList *)

Section SelfIdentity.

Import Disco After.

(** C1 (as amended).  On an engine without subscribers whose PeerList does
    not hold its identity, [poll] never adds the identity, provided no
    message on the inbound queue or among the arrivals names it in
    [reply] while coming from another source; and handling any message
    whose source is the identity leaves the PeerList as it was. *)
Theorem self_stays_out_of_peerlist (arrivals : list (list dict)) (w : World) :
  no_subscribers w →
  _id (self w) ∉ peers w →
  Forall (λ msg, ¬ names_me (_id (self w)) msg)
         (Queue.items (_in_queue (self w)) ++ concat arrivals) →
  (_id (self w) ∉ peers (poll arrivals w).2)
  ∧ ∀ msg, msg !! "source" = Some (_id (self w)) →
           _peerlist (self (on_message msg w).2) = _peerlist (self w)
           ∧ peers (on_message msg w).2 = peers w.
Proof.
  intros Hno Hout Hall. split.
  - by apply poll_keeps_me_out.
  - intros msg Hs. pose proof (on_message_from_self msg w Hs) as Hsame.
    split; [apply Hsame|by apply same_peers_peers].
Qed.

Lemma self_stays_out_of_peerlist_witness :
  let w := Scenario.engine [] in
  let arrivals := [[Scenario.message "DISCO" "A"; Scenario.reply_message "A" "A"];
                   [Scenario.reply_message "B" "B"]] in
  no_subscribers w
  ∧ (_id (self w) ∉ peers w)
  ∧ Forall (λ msg, ¬ names_me (_id (self w)) msg)
           (Queue.items (_in_queue (self w)) ++ concat arrivals)
  ∧ _id (self w) ∉ peers (poll arrivals w).2.
Proof.
  intros w arrivals.
  assert (H1 : no_subscribers w) by reflexivity.
  assert (H2 : _id (self w) ∉ peers w).
  { assert (Hp : peers w = ∅) by (vm_compute; reflexivity).
    rewrite Hp. apply not_elem_of_empty. }
  assert (H3 : Forall (λ msg, ¬ names_me (_id (self w)) msg)
                 (Queue.items (_in_queue (self w)) ++ concat arrivals)).
  { repeat constructor.
    - intros [Hr _]. vm_compute in Hr. discriminate Hr.
    - intros [_ Hs]. apply Hs. reflexivity.
    - intros [Hr _]. vm_compute in Hr. discriminate Hr. }
  split; [exact H1|]. split; [exact H2|]. split; [exact H3|].
  exact (proj1 (self_stays_out_of_peerlist arrivals w H1 H2 H3)).
Defined.

(** C1, as stated, fails: node "A" adds its own identity when a REPLY from
    "B" carries "A" in its [reply] member. *)
Lemma reply_naming_self_adds_self :
  let w := Scenario.engine [] in
  let w' := (poll [[Scenario.reply_message "B" "A"]] w).2 in
  _id (self w) = "A"
  ∧ peers w = ∅
  ∧ peers w' = {["A"]}
  ∧ _id (self w') ∈ peers w'.
Proof.
  intros w w'.
  assert (Hid : _id (self w') = "A") by (vm_compute; reflexivity).
  assert (Hp : peers w' = {["A"]}) by (vm_compute; reflexivity).
  split; [reflexivity|]. split; [vm_compute; reflexivity|]. split; [exact Hp|].
  rewrite Hid, Hp. by apply elem_of_singleton.
Qed.

End SelfIdentity.

(** ** Quorum *)

Section Quorum.

Import Disco After.

Implicit Types (w : World) (msg : dict).

Lemma on_message_replied msg source peer w :
  no_subscribers w →
  is_reply msg source peer →
  source ≠ _id (self w) →
  on_message msg w = (Ok Next, replied peer w).
Proof.
  intros Hno Hmsg Hne. rewrite (on_message_reply msg source peer w Hmsg Hne).
  destruct (add_peer_no_subscribers peer w Hno) as (_ & _ & Hlen & _ & Hself).
  unfold replied. rewrite Hlen, end_eq. cbn. rewrite Hself. cbn.
  destruct (size (peers w ∪ {[peer]})) as [|[|n]];
    by destruct (negb (_event (self w)) && negb (Queue.full (_out_queue (self w)))).
Qed.

Lemma replied_facts peer w :
  no_subscribers w →
  peers (replied peer w) = peers w ∪ {[peer]}
  ∧ no_subscribers (replied peer w)
  ∧ _endit (self (replied peer w)) = _endit (self w)
  ∧ _event (self (replied peer w)) = _event (self w)
  ∧ _id (self (replied peer w)) = _id (self w)
  ∧ _in_queue (self (replied peer w)) = _in_queue (self w)
  ∧ Queue.maxsize (_out_queue (self (replied peer w)))
    = Queue.maxsize (_out_queue (self w))
  ∧ Queue.items (_out_queue (self (replied peer w)))
    = if (MIN_PEERS <=? size (peers w ∪ {[peer]}))%nat
         && (negb (_event (self w)) && negb (Queue.full (_out_queue (self w))))
      then Queue.items (_out_queue (self w)) ++ [END_from (_id (self w))]
      else Queue.items (_out_queue (self w)).
Proof.
  intros Hno.
  destruct (add_peer_no_subscribers peer w Hno) as (_ & Hpeers & _ & Hno1 & Hself).
  assert (Hsame : _endit (self (peerlist_add_peer peer w).2) = _endit (self w)
                  ∧ _event (self (peerlist_add_peer peer w).2) = _event (self w)
                  ∧ _id (self (peerlist_add_peer peer w).2) = _id (self w)
                  ∧ _in_queue (self (peerlist_add_peer peer w).2) = _in_queue (self w)
                  ∧ _out_queue (self (peerlist_add_peer peer w).2)
                    = _out_queue (self w)).
  { by rewrite Hself. }
  destruct Hsame as (He & Hv & Hi & Hin & Hout).
  unfold replied.
  destruct ((MIN_PEERS <=? size (peers w ∪ {[peer]}))%nat
            && (negb (_event (self w)) && negb (Queue.full (_out_queue (self w)))));
    unfold no_subscribers, peers, enqueued in *; cbn; rewrite ?Hout;
    repeat split; done.
Qed.

Lemma replied_holding_facts pending peer w :
  no_subscribers w →
  peers (replied peer (holding pending w)) = peers w ∪ {[peer]}
  ∧ no_subscribers (replied peer (holding pending w))
  ∧ _endit (self (replied peer (holding pending w))) = _endit (self w)
  ∧ _event (self (replied peer (holding pending w))) = _event (self w)
  ∧ _id (self (replied peer (holding pending w))) = _id (self w)
  ∧ Queue.items (_in_queue (self (replied peer (holding pending w)))) = pending
  ∧ Queue.maxsize (_out_queue (self (replied peer (holding pending w))))
    = Queue.maxsize (_out_queue (self w))
  ∧ Queue.items (_out_queue (self (replied peer (holding pending w))))
    = if (MIN_PEERS <=? size (peers w ∪ {[peer]}))%nat
         && (negb (_event (self w)) && negb (Queue.full (_out_queue (self w))))
      then Queue.items (_out_queue (self w)) ++ [END_from (_id (self w))]
      else Queue.items (_out_queue (self w)).
Proof.
  intros Hno.
  destruct (replied_facts peer (holding pending w))
    as (H1 & H2 & H3 & H4 & H5 & H6 & H7 & H8); [done|].
  split; [exact H1|]. split; [exact H2|]. split; [exact H3|]. split; [exact H4|].
  split; [exact H5|]. split; [by rewrite H6|]. split; [exact H7|exact H8].
Qed.

Lemma poll_on_reply msg source peer batch rest later w :
  no_subscribers w →
  is_reply msg source peer →
  source ≠ _id (self w) →
  _endit (self w) = false →
  Queue.items (_in_queue (self w)) ++ batch = msg :: rest →
  poll (batch :: later) w
  = bind (for_message rest) (λ _, poll later) (replied peer (holding rest w)).
Proof.
  intros Hno Hmsg Hne Hrun Hin. rewrite poll_cons by done. rewrite Hin.
  unfold bind at 1. rewrite for_message_cons, holding_holding.
  rewrite (on_message_replied msg source peer (holding rest w)) by done.
  unfold bind. reflexivity.
Qed.

(** A world as [__init__] leaves it. *)
Lemma init_ok kw ip m d m' :
  __init__ kw ip m = (Ok d, m') →
  _id d = ip
  ∧ _endit d = false
  ∧ _event d = false
  ∧ _in_queue d = Queue.new 15
  ∧ _out_queue d = Queue.new 15
  ∧ no_subscribers {| self := d; mem := m' |}
  ∧ peers {| self := d; mem := m' |} = ∅.
Proof.
  unfold __init__.
  destruct (PeerList.__init__ m) as [pl m1] eqn:Ep.
  destruct (broker kw) as [b|]; [|done].
  destruct (Py.truthy (Some b)); [|done].
  intros [= <- <-]. unfold PeerList.__init__, alloc in Ep. injection Ep as <- <-.
  unfold no_subscribers, peers, PeerList.members, deref. cbn.
  by rewrite lookup_insert_eq.
Qed.

(** C2 (as amended).  On an engine without subscribers, a REPLY from
    another source adds the peer it names.  If the PeerList then holds at
    least two peers (and only then) the engine calls [end()], which queues
    an END message when [produce] takes it (no shutdown signal, room on
    the queue); [end()] does not set the end flag, [poll] goes on with
    the messages behind the REPLY, and it returns only with the end flag
    set. *)
Theorem quorum_reply_queues_END_and_poll_goes_on (msg : dict) (source peer : string)
    (batch rest : list dict) (later : list (list dict)) (w : World) :
  no_subscribers w →
  is_reply msg source peer →
  source ≠ _id (self w) →
  on_message msg w = (Ok Next, replied peer w)
  ∧ peers (replied peer w) = peers w ∪ {[peer]}
  ∧ _endit (self (replied peer w)) = _endit (self w)
  ∧ Queue.items (_out_queue (self (replied peer w)))
    = (if (2 <=? size (peers w ∪ {[peer]}))%nat
          && (negb (_event (self w)) && negb (Queue.full (_out_queue (self w))))
       then Queue.items (_out_queue (self w)) ++ [END_from (_id (self w))]
       else Queue.items (_out_queue (self w)))
  ∧ (_endit (self w) = false →
     Queue.items (_in_queue (self w)) ++ batch = msg :: rest →
     poll (batch :: later) w
     = bind (for_message rest) (λ _, poll later) (replied peer (holding rest w)))
  ∧ (∀ arrivals w', poll arrivals w = (Ok tt, w') → _endit (self w') = true).
Proof.
  intros Hno Hmsg Hne.
  destruct (replied_facts peer w Hno) as (Hp & _ & He & _ & _ & _ & _ & Hq).
  split; [by apply (on_message_replied msg source)|].
  split; [done|]. split; [done|]. split; [done|]. split.
  - intros Hrun Hin. by apply (poll_on_reply msg source).
  - intros arrivals w'. apply poll_returns_stopped.
Qed.

Lemma quorum_reply_queues_END_and_poll_goes_on_witness :
  let w := (poll [[Scenario.reply_message "B" "B"]] (Scenario.engine [])).2 in
  let msg := Scenario.reply_message "C" "C" in
  let rest := [Scenario.reply_message "D" "D"] in
  no_subscribers w
  ∧ is_reply msg "C" "C"
  ∧ "C" ≠ _id (self w)
  ∧ _endit (self (replied "C" w)) = _endit (self w)
  ∧ poll [msg :: rest] w
    = bind (for_message rest) (λ _, poll []) (replied "C" (holding rest w)).
Proof.
  intros w msg rest.
  assert (H1 : no_subscribers w) by (vm_compute; reflexivity).
  assert (H2 : is_reply msg "C" "C") by (repeat split; reflexivity).
  assert (H3 : "C" ≠ _id (self w)) by (vm_compute; discriminate).
  split; [exact H1|]. split; [exact H2|]. split; [exact H3|].
  destruct (quorum_reply_queues_END_and_poll_goes_on msg "C" "C" (msg :: rest) rest []
              w H1 H2 H3) as (_ & _ & He & _ & Hpoll & _).
  split; [exact He|]. apply Hpoll; vm_compute; reflexivity.
Defined.

(** C2, as stated, fails: after the second distinct reply the end flag is
    not set, [poll] is still in its loop, and the third reply behind it
    has been processed. *)
Lemma poll_goes_on_after_quorum :
  let w := (poll [[Scenario.reply_message "B" "B"; Scenario.reply_message "C" "C";
                   Scenario.reply_message "D" "D"]] (Scenario.engine [])) in
  w.1 = Wait
  ∧ _endit (self w.2) = false
  ∧ peers w.2 = {["B"; "C"; "D"]}
  ∧ Queue.items (_out_queue (self w.2)) = [END_from "A"; END_from "A"].
Proof.
  vm_compute. repeat split; reflexivity.
Qed.

(** C7 (as amended).  The threshold is the module constant [MIN_PEERS],
    which is 2; no keyword of the construction changes it.  Whatever the
    keywords (a further keyword, such as a threshold, included), an engine
    as constructed queues no END on the first REPLY from another node and
    queues its END when a second REPLY, naming another peer, brings the
    PeerList to two peers. *)
Theorem quorum_threshold_is_MIN_PEERS (kw : kwargs) (ip : string) (m m' : Mem)
    (d : Disco.t) (msg1 msg2 : dict) (source1 peer1 source2 peer2 : string) :
  kwargs_ok kw = true →
  __init__ kw ip m = (Ok d, m') →
  is_reply msg1 source1 peer1 →
  is_reply msg2 source2 peer2 →
  source1 ≠ ip →
  source2 ≠ ip →
  peer1 ≠ peer2 →
  MIN_PEERS = 2
  ∧ peers (poll [[msg1]] {| self := d; mem := m' |}).2 = {[peer1]}
  ∧ Queue.items (_out_queue (self (poll [[msg1]] {| self := d; mem := m' |}).2)) = []
  ∧ peers (poll [[msg1; msg2]] {| self := d; mem := m' |}).2 = {[peer1; peer2]}
  ∧ Queue.items (_out_queue (self (poll [[msg1; msg2]] {| self := d; mem := m' |}).2))
    = [END_from ip].
Proof.
  intros _ Hinit Hm1 Hm2 Hs1 Hs2 Hp.
  destruct (init_ok kw ip m d m' Hinit) as (Hid & He & Hv & Hin & Hout & Hno & Hpeers).
  change d with (self {| self := d; mem := m' |}) in Hid, He, Hv, Hin, Hout.
  set (w := {| self := d; mem := m' |}) in *.
  assert (Hone : size (∅ ∪ {[peer1]} : gset string) = 1).
  { by rewrite (left_id_L ∅ (∪)), size_singleton. }
  assert (Htwo : size ((∅ ∪ {[peer1]}) ∪ {[peer2]} : gset string) = 2).
  { rewrite (left_id_L ∅ (∪)), size_union, !size_singleton; [done|].
    by apply disjoint_singleton_l, not_elem_of_singleton. }
  split; [done|].
  (* one REPLY *)
  assert (Hpoll1 : ∀ rest,
            poll [msg1 :: rest] w
            = bind (for_message rest) (λ _, poll []) (replied peer1 (holding rest w))).
  { intros rest. apply (poll_on_reply msg1 source1); try done.
    - by rewrite Hid.
    - by rewrite Hin. }
  assert (Hfacts1 : ∀ rest,
            peers (replied peer1 (holding rest w)) = {[peer1]}
            ∧ no_subscribers (replied peer1 (holding rest w))
            ∧ _endit (self (replied peer1 (holding rest w))) = false
            ∧ _event (self (replied peer1 (holding rest w))) = false
            ∧ _id (self (replied peer1 (holding rest w))) = ip
            ∧ Queue.items (_in_queue (self (replied peer1 (holding rest w)))) = rest
            ∧ Queue.maxsize (_out_queue (self (replied peer1 (holding rest w)))) = 15
            ∧ Queue.items (_out_queue (self (replied peer1 (holding rest w)))) = []).
  { intros rest.
    destruct (replied_holding_facts rest peer1 w Hno)
      as (H1 & H2 & H3 & H4 & H5 & H6 & H7 & H8).
    rewrite Hpeers, Hone in H8. rewrite Hout in H7, H8.
    rewrite H1, H3, H4, H5, H7, H8, He, Hv, Hid, Hpeers.
    by rewrite (left_id_L ∅ (∪)). }
  destruct (Hfacts1 []) as (Ha1 & Ha2 & Ha3 & Ha4 & Ha5 & Ha6 & Ha7 & Ha8).
  split; [|split].
  { rewrite Hpoll1. unfold bind. simpl. by rewrite Ha3. }
  { rewrite Hpoll1. unfold bind. simpl. by rewrite Ha3. }
  (* two REPLYs *)
  destruct (Hfacts1 [msg2]) as (Hb1 & Hb2 & Hb3 & Hb4 & Hb5 & Hb6 & Hb7 & Hb8).
  set (w1 := replied peer1 (holding [msg2] w)) in *.
  assert (Hpoll2 : poll [[msg1; msg2]] w = (Wait, replied peer2 (holding [] w1))).
  { rewrite Hpoll1. fold w1. unfold bind at 1. rewrite for_message_cons.
    rewrite (on_message_replied msg2 source2 peer2 (holding [] w1)); try done.
    - destruct (replied_holding_facts [] peer2 w1 Hb2) as (_ & _ & H3 & _).
      change (for_message [] (replied peer2 (holding [] w1)))
        with (Ok tt, replied peer2 (holding [] w1)).
      cbv beta iota. rewrite poll_nil; [done|]. by rewrite H3.
    - change (_id (self (holding [] w1))) with (_id (self w1)). by rewrite Hb5. }
  rewrite Hpoll2.
  destruct (replied_holding_facts [] peer2 w1 Hb2)
    as (H1 & _ & _ & _ & _ & _ & _ & H8).
  change ((Wait, replied peer2 (holding [] w1)).2)
    with (replied peer2 (holding [] w1)).
  rewrite Hb1 in H1, H8.
  split; [done|].
  rewrite H8, Hb4, Hb5, Hb8.
  unfold Queue.full, Queue.qsize. rewrite Hb7, Hb8.
  replace (size ({[peer1]} ∪ {[peer2]} : gset string)) with 2; [done|].
  by rewrite <- Htwo, (left_id_L ∅ (∪)).
Qed.

Lemma quorum_threshold_is_MIN_PEERS_witness :
  let kw := Scenario.keywords [("quorum_threshold", Py.VInt 3)] in
  let w := Scenario.engine [("quorum_threshold", Py.VInt 3)] in
  let msg1 := Scenario.reply_message "B" "B" in
  let msg2 := Scenario.reply_message "C" "C" in
  kwargs_ok kw = true
  ∧ __init__ kw "A" Scenario.m0 = (Ok (self w), mem w)
  ∧ is_reply msg1 "B" "B"
  ∧ is_reply msg2 "C" "C"
  ∧ "B" ≠ "A" ∧ "C" ≠ "A" ∧ "B" ≠ "C"
  ∧ Queue.items (_out_queue (self (poll [[msg1; msg2]]
                                     {| self := self w; mem := mem w |}).2))
    = [END_from "A"].
Proof.
  intros kw w msg1 msg2.
  assert (Hk : kwargs_ok kw = true) by reflexivity.
  assert (H0 : __init__ kw "A" Scenario.m0 = (Ok (self w), mem w)) by reflexivity.
  assert (H1 : is_reply msg1 "B" "B") by (repeat split; reflexivity).
  assert (H2 : is_reply msg2 "C" "C") by (repeat split; reflexivity).
  assert (H3 : "B" ≠ "A") by discriminate.
  assert (H4 : "C" ≠ "A") by discriminate.
  assert (H5 : "B" ≠ "C") by discriminate.
  repeat (split; [assumption|]).
  exact (proj2 (proj2 (proj2 (proj2
    (quorum_threshold_is_MIN_PEERS kw "A" Scenario.m0 (mem w) (self w) msg1 msg2
       "B" "B" "C" "C" Hk H0 H1 H2 H3 H4 H5))))).
Defined.

(** C7, as stated, fails: the constructor takes no threshold.  A keyword
    such as [quorum_threshold=3] is stored and never read: the END is
    queued when the PeerList reaches two peers, not three. *)
Lemma supplied_threshold_is_ignored :
  let kw := Scenario.keywords [("quorum_threshold", Py.VInt 3)] in
  let w := Scenario.engine [("quorum_threshold", Py.VInt 3)] in
  let w' := (poll [[Scenario.reply_message "B" "B"; Scenario.reply_message "C" "C"]]
               w).2 in
  __init__ kw "A" Scenario.m0 = (Ok (self w), mem w)
  ∧ __dict__ (self w) = [("_quorum_threshold", Py.VInt 3)]
  ∧ size (peers w') = 2
  ∧ Queue.items (_out_queue (self w')) = [END_from "A"].
Proof.
  vm_compute. repeat split; reflexivity.
Qed.

End Quorum.

(** ** Construction *)

Section Construction.

Import Disco After.

Lemma truthy_Some (s : string) : Py.truthy (Some s) = true ↔ s ≠ "".
Proof.
  unfold Py.truthy. destruct (String.eqb_spec s ""); simpl; split; congruence.
Qed.

Lemma init_opened kw ip m : opened (__init__ kw ip m).2 = opened m.
Proof.
  unfold __init__.
  destruct (PeerList.__init__ m) as [pl m1] eqn:Ep.
  unfold PeerList.__init__, alloc in Ep. injection Ep as <- <-.
  destruct (broker kw) as [b|]; [|done].
  by destruct (Py.truthy (Some b)).
Qed.

(** C8 (as amended).  Construction raises [MissingArgumentError] exactly
    when no broker is given or the broker given is the empty string; with
    a non-empty broker it returns the engine.  On either path [__init__]
    opens no stream. *)
Theorem missing_broker_raises_at_construction (kw : kwargs) (ip : string) (m : Mem) :
  ((__init__ kw ip m).1 = Raise MissingArgumentError
   ↔ broker kw = None ∨ broker kw = Some "")
  ∧ ((∃ d, (__init__ kw ip m).1 = Ok d)
     ↔ ∃ b, broker kw = Some b ∧ b ≠ "")
  ∧ opened (__init__ kw ip m).2 = opened m.
Proof.
  split; [|split; [|apply init_opened]].
  - unfold __init__. destruct (PeerList.__init__ m) as [pl m1].
    destruct (broker kw) as [b|]; [|split; intros; [by left|done]].
    destruct (Py.truthy (Some b)) eqn:Et; simpl.
    + split; [done|]. intros [?|[= ->]]; [done|]. by vm_compute in Et.
    + split; [|done]. intros _. right. f_equal.
      destruct (String.eqb_spec b ""); [done|].
      apply truthy_Some in n. congruence.
  - unfold __init__. destruct (PeerList.__init__ m) as [pl m1].
    destruct (broker kw) as [b|].
    + destruct (Py.truthy (Some b)) eqn:Et; simpl.
      * split; [|by eexists]. intros _. exists b. split; [done|].
        by apply truthy_Some.
      * split; [by intros [d ?]|]. intros (b' & [= <-] & Hb).
        apply truthy_Some in Hb. congruence.
    + simpl. split; [by intros [d ?]|]. by intros (b' & ? & _).
Qed.

(** C8, as stated, fails: a broker is supplied, the empty string, and the
    construction raises [MissingArgumentError]. *)
Lemma empty_broker_raises :
  (__init__ {| broker := Some ""; read_topic := Some "snews.operations";
               write_topic := Some "snews.operations"; auth := None; others := [] |}
            "A" Scenario.m0).1
  = Raise MissingArgumentError.
Proof. reflexivity. Qed.

Lemma stream_uri_r_eq (b t : string) : stream_uri_r b t = kafka_uri b t.
Proof.
  unfold stream_uri_r, kafka_uri. by destruct (Py.contains "kafka://" (Py.lower b)).
Qed.

Lemma stream_uri_w_eq (b t : string) : stream_uri_w b t = kafka_uri b t.
Proof.
  unfold stream_uri_w, kafka_uri. by destruct (Py.contains "kafka" (Py.lower b)).
Qed.

(** C10.  The two branches of each scheme test are the same text: for a
    broker [b], whether it carries the scheme or not, and any topic, the
    conditionals yield "kafka://" + b + "/" + topic; every URI that
    [__init__] computes from the read or the write topic is that text; and
    with a non-empty broker the engine is constructed and holds it for
    every non-empty topic. *)
Theorem stream_uri_is_concatenation (kw : kwargs) (ip : string) (m : Mem) (b : string) :
  kwargs_ok kw = true →
  broker kw = Some b →
  (∀ t, stream_uri_r b t = "kafka://" +:+ b +:+ "/" +:+ t
        ∧ stream_uri_w b t = "kafka://" +:+ b +:+ "/" +:+ t)
  ∧ (∀ d m', __init__ kw ip m = (Ok d, m') →
       (∀ t uri, read_topic kw = Some t → _stream_uri_r d = Some uri →
                 uri = "kafka://" +:+ b +:+ "/" +:+ t)
       ∧ (∀ t uri, write_topic kw = Some t → _stream_uri_w d = Some uri →
                   uri = "kafka://" +:+ b +:+ "/" +:+ t))
  ∧ (b ≠ "" →
     ∃ d m', __init__ kw ip m = (Ok d, m')
       ∧ (∀ t, read_topic kw = Some t → t ≠ "" →
               _stream_uri_r d = Some ("kafka://" +:+ b +:+ "/" +:+ t))
       ∧ (∀ t, write_topic kw = Some t → t ≠ "" →
               _stream_uri_w d = Some ("kafka://" +:+ b +:+ "/" +:+ t))).
Proof.
  intros _ Hb.
  split; [intros t; split; [apply stream_uri_r_eq|apply stream_uri_w_eq]|].
  unfold __init__. destruct (PeerList.__init__ m) as [pl m1].
  rewrite Hb. split.
  - intros d m'. destruct (Py.truthy (Some b)); [|done].
    intros [= <- <-]. cbn [_stream_uri_r _stream_uri_w].
    split; intros t uri Ht; rewrite Ht.
    + destruct (negb (String.eqb t "")); [|done].
      rewrite stream_uri_r_eq. by intros [= <-].
    + destruct (negb (String.eqb t "")); [|done].
      rewrite stream_uri_w_eq. by intros [= <-].
  - intros Hne. apply truthy_Some in Hne. rewrite Hne.
    eexists _, _. split; [reflexivity|]. cbn [_stream_uri_r _stream_uri_w].
    split; intros t Ht Hnt; rewrite Ht; apply truthy_Some in Hnt; rewrite Hnt.
    + by rewrite stream_uri_r_eq.
    + by rewrite stream_uri_w_eq.
Qed.

Lemma stream_uri_is_concatenation_witness :
  let kw := {| broker := Some "kafka://kafka.scimma.org";
               read_topic := Some "snews.operations";
               write_topic := Some "snews.alert";
               auth := None; others := [] |} in
  kwargs_ok kw = true
  ∧ broker kw = Some "kafka://kafka.scimma.org"
  ∧ ∃ d m', __init__ kw "A" Scenario.m0 = (Ok d, m')
      ∧ _stream_uri_r d = Some "kafka://kafka://kafka.scimma.org/snews.operations"
      ∧ _stream_uri_w d = Some "kafka://kafka://kafka.scimma.org/snews.alert".
Proof.
  intros kw.
  split; [reflexivity|]. split; [reflexivity|].
  destruct (stream_uri_is_concatenation kw "A" Scenario.m0
              "kafka://kafka.scimma.org" eq_refl eq_refl)
    as (_ & _ & Hmake).
  destruct Hmake as (d & m' & Hinit & Hr & Hw); [discriminate|].
  exists d, m'. split; [exact Hinit|]. split.
  - apply (Hr "snews.operations"); [reflexivity|discriminate].
  - apply (Hw "snews.alert"); [reflexivity|discriminate].
Defined.

End Construction.

(** ** Worked examples *)

Section Examples.

Import Disco After.

Example contains_is_a_substring_test :
  Py.contains "END" "WEEKEND" = true
  ∧ Py.contains "END" "REPLY" = false
  ∧ Py.contains "kafka://" (Py.lower "Kafka://Host") = true.
Proof. repeat split; reflexivity. Qed.

(** The engine of the scenarios is the one [__init__] constructs. *)
Example engine_is_constructed :
  __init__ (Scenario.keywords []) "A" Scenario.m0
  = (Ok (self (Scenario.engine [])), mem (Scenario.engine [])).
Proof. reflexivity. Qed.

(** An action that merely contains END stops the engine. *)
Example action_containing_END_stops :
  on_message (Scenario.message "WEEKEND" "B") (Scenario.engine [])
  = (Ok Break, stopped (Scenario.engine [])).
Proof. reflexivity. Qed.

(** Node "A" announces itself, hears from "B" and from "C", queues its
    END, and stops when its END comes back on the topic it reads. *)
Example discovery_of_two_peers :
  let r := discovery [[Scenario.reply_message "B" "B"];
                      [Scenario.reply_message "C" "C"];
                      [Scenario.message "END" "A"]] (Scenario.engine []) in
  r.1 = Ok tt
  ∧ peers r.2 = {["B"; "C"]}
  ∧ Queue.items (_out_queue (self r.2))
    = [json_dumps (Scenario.message "DISCO" "A"); END_from "A"]
  ∧ _endit (self r.2) = true
  ∧ _event (self r.2) = true.
Proof.
  vm_compute. repeat split; reflexivity.
Qed.

(** Without the END coming back the loop is still waiting. *)
Example discovery_waits_for_END :
  (discovery [[Scenario.reply_message "B" "B"]; [Scenario.reply_message "C" "C"]]
     (Scenario.engine [])).1
  = Wait.
Proof.
  vm_compute. reflexivity.
Qed.

(** The streams are opened on entering the scope, not at construction. *)
Example streams_open_on_enter :
  opened (mem (Scenario.engine [])) = []
  ∧ opened (mem (open_streams (Scenario.engine [])).2)
    = [("kafka://kafka.scimma.org/snews.operations", "r");
       ("kafka://kafka.scimma.org/snews.operations", "w")].
Proof. split; reflexivity. Qed.

End Examples.

(** * The message loop, case by case *)

Section Classification.

Import Disco After Handshake.

Implicit Types (w : World) (msg : dict).

Lemma on_message_cases msg w :
  (∃ e, on_message msg w = (Raise e, w))
  ∨ on_message msg w = (Ok Next, w)
  ∨ on_message msg w = (Ok Break, stopped w)
  ∨ on_message msg w = (Ok Next, answered w)
  ∨ ∃ source peer,
      msg !! "source" = Some source
      ∧ source ≠ _id (self w)
      ∧ msg !! "reply" = Some peer
      ∧ on_message msg w = (Ok Next, counted peer w).
Proof.
  unfold on_message, getitem.
  destruct (msg !! "action") as [a|]; [|left; by eexists].
  run. destruct (Py.contains "END" a); [by right; right; left|].
  destruct (msg !! "source") as [source|] eqn:Hs; [|left; by eexists].
  run. destruct (String.eqb_spec (_id (self w)) source) as [Heq|Hne];
    [by right; left|].
  run. destruct (Py.contains "DISCO" a).
  - right; right; right; left. unfold reply. run. rewrite produce_eq.
    unfold answered, can_produce, in_discovery. cbn.
    by destruct (negb (_event (self w)) && negb (Queue.full (_out_queue (self w)))).
  - destruct (Py.contains "REPLY" a); [|left; by eexists].
    destruct (msg !! "reply") as [peer|] eqn:Hr; [|left; by eexists].
    right; right; right; right. exists source, peer.
    split; [done|]. split; [done|]. split; [done|].
    unfold counted.
    pose proof (peerlist_add_peer_ok peer w) as Hok.
    destruct (peerlist_add_peer peer w) as [r w1]. simpl in Hok. subst r. run.
    match goal with |- context [if ?c then _ else _] => destruct c end; [|done].
    rewrite end_eq. reflexivity.
Qed.

(** The fields that [peerlist_add_peer] leaves alone. *)
Lemma peerlist_add_peer_frame peer w :
  same_configuration w (peerlist_add_peer peer w).2
  ∧ _endit (self (peerlist_add_peer peer w).2) = _endit (self w)
  ∧ _event (self (peerlist_add_peer peer w).2) = _event (self w)
  ∧ _in_disco (self (peerlist_add_peer peer w).2) = _in_disco (self w)
  ∧ _in_queue (self (peerlist_add_peer peer w).2) = _in_queue (self w)
  ∧ _out_queue (self (peerlist_add_peer peer w).2) = _out_queue (self w).
Proof.
  unfold peerlist_add_peer, PeerList.add_peer, same_configuration.
  destruct (deepcopy (PeerList._state (_peerlist (self w))) (mem w)) as [old m1].
  cbn. repeat split; reflexivity.
Qed.

Lemma same_configuration_refl w : same_configuration w w.
Proof. unfold same_configuration. repeat split; reflexivity. Qed.

Lemma same_configuration_trans w1 w2 w3 :
  same_configuration w1 w2 → same_configuration w2 w3 → same_configuration w1 w3.
Proof.
  unfold same_configuration.
  intros (A1 & A2 & A3 & A4 & A5 & A6 & A7 & A8 & A9 & A10 & A11 & A12 & A13 & A14)
         (B1 & B2 & B3 & B4 & B5 & B6 & B7 & B8 & B9 & B10 & B11 & B12 & B13 & B14).
  repeat split; congruence.
Qed.

Lemma same_configuration_enqueued (x : wire) w : same_configuration w (enqueued x w).
Proof. unfold same_configuration. repeat split; reflexivity. Qed.

Lemma answered_frame w :
  same_configuration w (answered w)
  ∧ _endit (self (answered w)) = _endit (self w)
  ∧ _event (self (answered w)) = _event (self w)
  ∧ _in_disco (self (answered w)) = true
  ∧ _in_queue (self (answered w)) = _in_queue (self w)
  ∧ _peerlist (self (answered w)) = _peerlist (self w)
  ∧ mem (answered w) = mem w
  ∧ Queue.items (_out_queue (self (answered w)))
    = Queue.items (_out_queue (self w))
      ++ (if can_produce w then [REPLY_from (_id (self w))] else []).
Proof.
  unfold answered, same_configuration.
  destruct (can_produce w); cbn; rewrite ?app_nil_r; repeat split; reflexivity.
Qed.

Lemma counted_frame peer w :
  same_configuration w (counted peer w)
  ∧ _endit (self (counted peer w)) = _endit (self w)
  ∧ _event (self (counted peer w)) = _event (self w)
  ∧ _in_disco (self (counted peer w)) = _in_disco (self w)
  ∧ _in_queue (self (counted peer w)) = _in_queue (self w)
  ∧ same_peers (peerlist_add_peer peer w).2 (counted peer w)
  ∧ ∃ new, Queue.items (_out_queue (self (counted peer w)))
           = Queue.items (_out_queue (self w)) ++ new
           ∧ (new = [] ∨ (new = [END_from (_id (self w))] ∧ can_produce w = true)).
Proof.
  destruct (peerlist_add_peer_frame peer w) as (Hc & He & Hv & Hd & Hi & Ho).
  unfold counted.
  destruct (MIN_PEERS <=? PeerList.__len__
              (_peerlist (self (peerlist_add_peer peer w).2)))%nat.
  - rewrite end_eq. cbn [snd]. rewrite Hv, Ho.
    fold (can_produce w). destruct (can_produce w) eqn:Hcan.
    + split. { eapply same_configuration_trans; [exact Hc|].
               apply same_configuration_enqueued. }
      cbn. rewrite He, Hv, Hd, Hi, Ho. repeat split; try reflexivity.
      destruct Hc as (Hid & _). rewrite Hid.
      eexists. split; [reflexivity|]. by right.
    + repeat split; try done. exists []. rewrite app_nil_r. split; [by rewrite Ho|by left].
  - repeat split; try done. exists []. rewrite app_nil_r. split; [by rewrite Ho|by left].
Qed.

(** *** Invariants of the loops *)

Lemma for_message_in_queue_suffix pending w :
  (Queue.items (_in_queue (self w)) `suffix_of` pending) →
  Queue.items (_in_queue (self (for_message pending w).2)) `suffix_of` pending.
Proof.
  revert w. induction pending as [|msg rest IH]; intros w Hsuf; [done|].
  rewrite for_message_cons.
  pose proof (on_message_in_queue msg (holding rest w)) as Hq.
  destruct (on_message msg (holding rest w)) as [[[]|e|] w']; simpl in Hq; simpl.
  - apply suffix_cons_r, IH. by rewrite Hq.
  - rewrite Hq. simpl. by apply suffix_cons_r.
  - rewrite Hq. simpl. by apply suffix_cons_r.
  - rewrite Hq. simpl. by apply suffix_cons_r.
Qed.

Lemma for_message_invariant (P : World → Prop) (Q : dict → Prop) :
  (∀ pending w, P w → P (holding pending w)) →
  (∀ msg w, Q msg → P w → P (on_message msg w).2) →
  ∀ pending w, P w → Forall Q pending → P (for_message pending w).2.
Proof.
  intros Hhold Hstep pending. induction pending as [|msg rest IH]; intros w Hw Hall.
  - done.
  - apply Forall_cons in Hall as [Hmsg Hrest]. rewrite for_message_cons.
    pose proof (Hstep msg (holding rest w) Hmsg (Hhold rest w Hw)) as Hw'.
    destruct (on_message msg (holding rest w)) as [[[]|e|] w']; simpl in Hw'; simpl;
      [by apply IH|done..].
Qed.

Lemma poll_invariant (P : World → Prop) (Q : dict → Prop) :
  (∀ pending w, P w → P (holding pending w)) →
  (∀ msg w, Q msg → P w → P (on_message msg w).2) →
  ∀ arrivals w,
    P w →
    Forall Q (Queue.items (_in_queue (self w)) ++ concat arrivals) →
    P (poll arrivals w).2.
Proof.
  intros Hhold Hstep arrivals.
  induction arrivals as [|batch later IH]; intros w Hw Hall.
  - by destruct (_endit (self w)) eqn:He; [rewrite poll_stopped|rewrite poll_nil].
  - destruct (_endit (self w)) eqn:He; [by rewrite poll_stopped|].
    rewrite poll_cons by done. simpl in Hall. rewrite app_assoc in Hall.
    apply Forall_app in Hall as [Hnow Hlater].
    pose proof (for_message_invariant P Q Hhold Hstep
                  (Queue.items (_in_queue (self w)) ++ batch)
                  (holding (Queue.items (_in_queue (self w)) ++ batch) w)
                  (Hhold _ w Hw) Hnow) as Hw1.
    assert (Hsuf : Queue.items (_in_queue (self (for_message
                       (Queue.items (_in_queue (self w)) ++ batch)
                       (holding (Queue.items (_in_queue (self w)) ++ batch) w)).2))
                   `suffix_of` (Queue.items (_in_queue (self w)) ++ batch)).
    { by apply for_message_in_queue_suffix. }
    unfold bind.
    destruct (for_message (Queue.items (_in_queue (self w)) ++ batch)
                (holding (Queue.items (_in_queue (self w)) ++ batch) w))
      as [[[]|e|] w1]; simpl in Hw1, Hsuf; [|done..].
    apply IH; [done|]. apply Forall_app. split; [|done].
    apply (Forall_suffix _ _ _ Hsuf Hnow).
Qed.

Lemma poll_always (P : World → Prop) :
  (∀ pending w, P w → P (holding pending w)) →
  (∀ msg w, P w → P (on_message msg w).2) →
  ∀ arrivals w, P w → P (poll arrivals w).2.
Proof.
  intros Hhold Hstep arrivals w Hw.
  apply (poll_invariant P (λ _, True)); [done| |done|].
  - intros msg w' _ Hw'. by apply Hstep.
  - by apply Forall_true.
Qed.

End Classification.

(** * What polling preserves *)

Section PollInvariants.

Import Disco After Handshake.

Implicit Types (w : World) (msg : dict).

Lemma on_message_configuration msg w : same_configuration w (on_message msg w).2.
Proof.
  destruct (on_message_cases msg w)
    as [[e ->]|[->|[->|[->|(source & peer & _ & _ & _ & ->)]]]]; simpl.
  - apply same_configuration_refl.
  - apply same_configuration_refl.
  - unfold same_configuration. repeat split; reflexivity.
  - apply answered_frame.
  - apply counted_frame.
Qed.

(** X1.  Polling changes neither the identity nor anything else that was
    fixed at construction: broker, topics, stream URIs, the attributes
    from other keywords, the capacities of the two queues; and the
    PeerList keeps its set object and its subscribers. *)
Theorem poll_keeps_configuration (arrivals : list (list dict)) (w : World) :
  same_configuration w (poll arrivals w).2.
Proof.
  apply (poll_always (same_configuration w)).
  - intros pending w' Hw'. eapply same_configuration_trans; [exact Hw'|].
    unfold same_configuration. repeat split; reflexivity.
  - intros msg w' Hw'. eapply same_configuration_trans; [exact Hw'|].
    apply on_message_configuration.
  - apply same_configuration_refl.
Qed.

(** Either the message was an END and both flags are set, or both flags
    are as they were. *)
Lemma on_message_flags msg w :
  ((on_message msg w).1 = Ok Break
   ∧ _endit (self (on_message msg w).2) = true
   ∧ _event (self (on_message msg w).2) = true)
  ∨ ((∃ e, (on_message msg w).1 = Raise e) ∨ (on_message msg w).1 = Ok Next)
    ∧ _endit (self (on_message msg w).2) = _endit (self w)
    ∧ _event (self (on_message msg w).2) = _event (self w).
Proof.
  destruct (on_message_cases msg w)
    as [[e ->]|[->|[->|[->|(source & peer & _ & _ & _ & ->)]]]]; simpl.
  - right. split; [left; by eexists|done].
  - right. split; [by right|done].
  - by left.
  - right. destruct (answered_frame w) as (_ & He & Hv & _).
    rewrite He, Hv. split; [by right|done].
  - right. destruct (counted_frame peer w) as (_ & He & Hv & _).
    rewrite He, Hv. split; [by right|done].
Qed.

(** From an engine whose end flag is unset, the [for] loop either meets an
    END and sets both flags, or leaves both as they were. *)
Lemma for_message_flags pending w :
  ((for_message pending w).1 = Ok tt
   ∧ _endit (self (for_message pending w).2) = true
   ∧ _event (self (for_message pending w).2) = true)
  ∨ (_endit (self (for_message pending w).2) = _endit (self w)
     ∧ _event (self (for_message pending w).2) = _event (self w)).
Proof.
  revert w. induction pending as [|msg rest IH]; intros w; [by right|].
  rewrite for_message_cons.
  destruct (on_message_flags msg (holding rest w))
    as [(Hr & He & Hv)|(Hr & He & Hv)].
  - destruct (on_message msg (holding rest w)) as [r w']; simpl in *. subst r.
    by left.
  - destruct (on_message msg (holding rest w)) as [[[]|e|] w']; simpl in *.
    + destruct (IH w') as [?|[He' Hv']]; [by left|]. right. by rewrite He', Hv'.
    + by right.
    + by right.
    + by destruct Hr as [[? ?]|?].
Qed.

Lemma poll_stopped_returns arrivals w :
  _endit (self (poll arrivals w).2) = true → (poll arrivals w).1 = Ok tt.
Proof.
  revert w. induction arrivals as [|batch later IH]; intros w;
    destruct (_endit (self w)) eqn:He.
  - by rewrite poll_stopped.
  - rewrite poll_nil by done. simpl. congruence.
  - by rewrite poll_stopped.
  - rewrite poll_cons by done. unfold bind.
    destruct (for_message_flags (Queue.items (_in_queue (self w)) ++ batch)
                (holding (Queue.items (_in_queue (self w)) ++ batch) w))
      as [(Hr & _)|(He1 & _)];
    destruct (for_message (Queue.items (_in_queue (self w)) ++ batch)
                (holding (Queue.items (_in_queue (self w)) ++ batch) w))
      as [[[]|e|] w1]; simpl in *; try done; try apply IH; congruence.
Qed.

(** X2.  From an engine whose two termination flags agree, polling leaves
    them in agreement, and it returns exactly when the end flag is set in
    the world it leaves: an exception or a loop that is still waiting
    leaves both flags unset. *)
Theorem poll_returns_iff_stopped (arrivals : list (list dict)) (w : World) :
  _endit (self w) = _event (self w) →
  _endit (self (poll arrivals w).2) = _event (self (poll arrivals w).2)
  ∧ ((poll arrivals w).1 = Ok tt ↔ _endit (self (poll arrivals w).2) = true).
Proof.
  intros Hagree. split.
  - apply (poll_always (λ w', _endit (self w') = _event (self w'))); [done| |done].
    intros msg w' Hw'.
    destruct (on_message_flags msg w') as [(_ & He & Hv)|(_ & He & Hv)]; congruence.
  - split; [|apply poll_stopped_returns].
    destruct (poll arrivals w) as [[[]|e|] w'] eqn:Hp; simpl; try done.
    intros _. by apply (poll_returns_stopped arrivals w).
Qed.

Lemma poll_returns_iff_stopped_witness :
  let w := node "A" in
  let arrivals := [[Scenario.message "DISCO" "B"; Scenario.message "END" "B"]] in
  _endit (self w) = _event (self w)
  ∧ (poll arrivals w).1 = Ok tt
  ∧ _event (self (poll arrivals w).2) = true.
Proof.
  intros w arrivals.
  assert (H : _endit (self w) = _event (self w)) by reflexivity.
  split; [exact H|].
  destruct (poll_returns_iff_stopped arrivals w H) as [Hagree [_ Hreturns]].
  assert (Hend : _endit (self (poll arrivals w).2) = true)
    by (vm_compute; reflexivity).
  split; [exact (Hreturns Hend)|].
  rewrite <- Hagree. exact Hend.
Defined.

End PollInvariants.

(** * The outbound queue and the peers discovered *)

Section Outbound.

Import Disco After Handshake.

Implicit Types (w : World) (msg : dict).

(** What one message adds to the outbound queue. *)
Lemma on_message_outbound msg w :
  ∃ new,
    Queue.items (_out_queue (self (on_message msg w).2))
    = Queue.items (_out_queue (self w)) ++ new
    ∧ (new = []
       ∨ (can_produce w = true
          ∧ (new = [REPLY_from (_id (self w))] ∨ new = [END_from (_id (self w))]))).
Proof.
  destruct (on_message_cases msg w)
    as [[e ->]|[->|[->|[->|(source & peer & _ & _ & _ & ->)]]]]; simpl.
  - exists []. rewrite app_nil_r. by split; [|left].
  - exists []. rewrite app_nil_r. by split; [|left].
  - exists []. rewrite app_nil_r. by split; [|left].
  - destruct (answered_frame w) as (_ & _ & _ & _ & _ & _ & _ & Ho).
    rewrite Ho. eexists. split; [reflexivity|].
    destruct (can_produce w); [right; split; [done|by left]|by left].
  - destruct (counted_frame peer w) as (_ & _ & _ & _ & _ & _ & new & Ho & Hnew).
    exists new. split; [done|]. destruct Hnew as [->|[-> Hcan]]; [by left|].
    right. split; [done|by right].
Qed.

(** X3.  Polling only appends to the outbound queue, and what it appends
    are the engine's own REPLY and END messages: nothing queued is dropped
    or reordered, no DISCO is sent from the loop and no message of another
    node is forwarded. *)
Theorem poll_appends_own_messages (arrivals : list (list dict)) (w : World) :
  ∃ new,
    Queue.items (_out_queue (self (poll arrivals w).2))
    = Queue.items (_out_queue (self w)) ++ new
    ∧ Forall (λ x, x = REPLY_from (_id (self w)) ∨ x = END_from (_id (self w))) new.
Proof.
  apply (poll_always
           (λ w', _id (self w') = _id (self w)
                  ∧ ∃ new, Queue.items (_out_queue (self w'))
                           = Queue.items (_out_queue (self w)) ++ new
                           ∧ Forall (λ x, x = REPLY_from (_id (self w))
                                          ∨ x = END_from (_id (self w))) new)).
  - intros pending w' Hw'. exact Hw'.
  - intros msg w' (Hid & new & Hq & Hall).
    destruct (on_message_configuration msg w') as (Hid' & _).
    split; [congruence|].
    destruct (on_message_outbound msg w') as (more & Hq' & Hmore).
    exists (new ++ more). rewrite Hq', Hq, app_assoc. split; [done|].
    apply Forall_app. split; [done|]. rewrite Hid in Hmore.
    destruct Hmore as [-> | [_ [-> | ->]]]; [constructor|..];
      (constructor; [auto|constructor]).
  - split; [done|]. exists []. by rewrite app_nil_r.
Qed.

Lemma Queue_not_full {A} (q : Queue.t A) :
  0 < Queue.maxsize q → Queue.full q = false → Queue.qsize q < Queue.maxsize q.
Proof.
  unfold Queue.full. intros Hpos.
  destruct (Nat.ltb_spec 0 (Queue.maxsize q)); [|lia].
  destruct (Nat.leb_spec (Queue.maxsize q) (Queue.qsize q)); [done|lia].
Qed.

(** X4.  The outbound queue of a bounded engine never holds more than its
    capacity: polling keeps the number of queued messages within
    [maxsize]. *)
Theorem poll_respects_capacity (arrivals : list (list dict)) (w : World) :
  0 < Queue.maxsize (_out_queue (self w)) →
  (Queue.qsize (_out_queue (self w)) ≤ Queue.maxsize (_out_queue (self w)))%nat →
  (Queue.qsize (_out_queue (self (poll arrivals w).2))
   ≤ Queue.maxsize (_out_queue (self (poll arrivals w).2)))%nat.
Proof.
  intros Hpos Hle.
  apply (poll_always
           (λ w', 0 < Queue.maxsize (_out_queue (self w'))
                  ∧ (Queue.qsize (_out_queue (self w'))
                     ≤ Queue.maxsize (_out_queue (self w')))%nat)); [done| |done].
  intros msg w' [Hpos' Hle'].
  destruct (on_message_configuration msg w')
    as (_ & _ & _ & _ & _ & _ & _ & _ & _ & _ & _ & Hmax & _).
  rewrite Hmax. split; [done|].
  destruct (on_message_outbound msg w') as (new & Hq & Hnew).
  unfold Queue.qsize in *. rewrite Hq, length_app.
  destruct Hnew as [->|[Hcan Hnew]]; [simpl; lia|].
  unfold can_produce in Hcan. apply andb_true_iff in Hcan as [_ Hfull].
  apply negb_true_iff in Hfull. apply Queue_not_full in Hfull; [|done].
  unfold Queue.qsize in Hfull. destruct Hnew as [->| ->]; simpl; lia.
Qed.

Lemma poll_respects_capacity_witness :
  let w := (poll [[Scenario.message "DISCO" "B"; Scenario.reply_message "B" "B";
                   Scenario.reply_message "C" "C"]] (Scenario.engine [])).2 in
  0 < Queue.maxsize (_out_queue (self w))
  ∧ (Queue.qsize (_out_queue (self w)) ≤ Queue.maxsize (_out_queue (self w)))%nat
  ∧ (Queue.qsize (_out_queue (self (poll [[Scenario.reply_message "D" "D"]] w).2))
     ≤ Queue.maxsize
         (_out_queue (self (poll [[Scenario.reply_message "D" "D"]] w).2)))%nat.
Proof.
  intros w.
  assert (H1 : 0 < Queue.maxsize (_out_queue (self w))) by (vm_compute; lia).
  assert (H2 : (Queue.qsize (_out_queue (self w))
                ≤ Queue.maxsize (_out_queue (self w)))%nat) by (vm_compute; lia).
  split; [exact H1|]. split; [exact H2|].
  exact (poll_respects_capacity [[Scenario.reply_message "D" "D"]] w H1 H2).
Defined.

End Outbound.

Section Discovered.

Import Disco After Handshake.

Implicit Types (w : World) (msg : dict).

(** X5.  On an engine without subscribers polling never removes a peer,
    and every peer it adds is the [reply] member of a message that was
    delivered, from a source other than the engine itself. *)
Theorem poll_peers_come_from_replies (arrivals : list (list dict)) (w : World) :
  no_subscribers w →
  peers w ⊆ peers (poll arrivals w).2
  ∧ ∀ peer, peer ∈ peers (poll arrivals w).2 →
      peer ∈ peers w
      ∨ ∃ msg, msg ∈ Queue.items (_in_queue (self w)) ++ concat arrivals
               ∧ msg !! "reply" = Some peer
               ∧ msg !! "source" ≠ Some (_id (self w)).
Proof.
  intros Hno.
  set (all := Queue.items (_in_queue (self w)) ++ concat arrivals).
  enough (no_subscribers (poll arrivals w).2
          ∧ _id (self (poll arrivals w).2) = _id (self w)
          ∧ peers w ⊆ peers (poll arrivals w).2
          ∧ ∀ peer, peer ∈ peers (poll arrivals w).2 →
              peer ∈ peers w
              ∨ ∃ msg, msg ∈ all ∧ msg !! "reply" = Some peer
                       ∧ msg !! "source" ≠ Some (_id (self w)))
    as (_ & _ & H1 & H2) by done.
  apply (poll_invariant
           (λ w', no_subscribers w'
                  ∧ _id (self w') = _id (self w)
                  ∧ peers w ⊆ peers w'
                  ∧ ∀ peer, peer ∈ peers w' →
                      peer ∈ peers w
                      ∨ ∃ msg, msg ∈ all ∧ msg !! "reply" = Some peer
                               ∧ msg !! "source" ≠ Some (_id (self w)))
           (λ msg, msg ∈ all)).
  - intros pending w' Hw'. exact Hw'.
  - intros msg w' Hin (Hno' & Hid & Hsub & Hfrom).
    destruct (on_message_peers msg w')
      as [(Hp & Hm & Hi)|(source & peer & Hs & Hne & Hr & (Hp & Hm & Hi))].
    + unfold no_subscribers, peers in *. rewrite Hp, Hm, Hi.
      split; [done|]. split; [done|]. split; [done|]. exact Hfrom.
    + destruct (add_peer_no_subscribers peer w' Hno')
        as (_ & Hpeers & _ & Hno1 & Hself).
      assert (Hid1 : _id (self (peerlist_add_peer peer w').2) = _id (self w')).
      { by rewrite Hself. }
      unfold no_subscribers, peers in *. rewrite Hp, Hm, Hi.
      split; [done|]. split; [congruence|]. rewrite Hpeers. split.
      * intros x Hx. apply elem_of_union. left. by apply Hsub.
      * intros x Hx. apply elem_of_union in Hx as [Hx|Hx]; [by apply Hfrom|].
        apply elem_of_singleton in Hx as ->. right. exists msg.
        split; [done|]. split; [done|]. rewrite Hs. congruence.
  - split; [done|]. split; [done|]. split; [done|]. intros peer Hp. by left.
  - apply Forall_forall. by intros msg Hin.
Qed.

Lemma poll_peers_come_from_replies_witness :
  let w := Scenario.engine [] in
  let arrivals := [[Scenario.reply_message "B" "B"]] in
  no_subscribers w
  ∧ peers w ⊆ peers (poll arrivals w).2.
Proof.
  intros w arrivals.
  assert (H : no_subscribers w) by reflexivity.
  split; [exact H|].
  exact (proj1 (poll_peers_come_from_replies arrivals w H)).
Defined.

(** X6.  On an engine without subscribers whose PeerList length equals the
    number of peers, polling keeps it so: the count that the quorum test
    reads is the number of distinct peers discovered. *)
Theorem poll_keeps_length (arrivals : list (list dict)) (w : World) :
  no_subscribers w →
  PeerList.__len__ (_peerlist (self w)) = size (peers w) →
  PeerList.__len__ (_peerlist (self (poll arrivals w).2))
  = size (peers (poll arrivals w).2).
Proof.
  intros Hno Hlen.
  enough (no_subscribers (poll arrivals w).2
          ∧ PeerList.__len__ (_peerlist (self (poll arrivals w).2))
            = size (peers (poll arrivals w).2)) as [_ H] by done.
  apply (poll_always
           (λ w', no_subscribers w'
                  ∧ PeerList.__len__ (_peerlist (self w')) = size (peers w')));
    [done| |done].
  intros msg w' (Hno' & Hlen').
  destruct (on_message_peers msg w')
    as [(Hp & Hm & Hi)|(source & peer & Hs & Hne & Hr & (Hp & Hm & Hi))].
  - unfold no_subscribers, peers in *. by rewrite Hp, Hm.
  - destruct (add_peer_no_subscribers peer w' Hno')
      as (_ & Hpeers & Hlen1 & Hno1 & _).
    unfold no_subscribers, peers in *. rewrite Hp, Hm.
    split; [done|]. by rewrite Hlen1, Hpeers.
Qed.

Lemma poll_keeps_length_witness :
  let w := Scenario.engine [] in
  let arrivals := [[Scenario.reply_message "B" "B"; Scenario.reply_message "C" "B"]] in
  no_subscribers w
  ∧ PeerList.__len__ (_peerlist (self w)) = size (peers w)
  ∧ PeerList.__len__ (_peerlist (self (poll arrivals w).2))
    = size (peers (poll arrivals w).2).
Proof.
  intros w arrivals.
  assert (H1 : no_subscribers w) by reflexivity.
  assert (H2 : PeerList.__len__ (_peerlist (self w)) = size (peers w))
    by (vm_compute; reflexivity).
  split; [exact H1|]. split; [exact H2|].
  exact (poll_keeps_length arrivals w H1 H2).
Defined.

(** X7.  [get_peerlist] hands out the live set: the reference it returns
    before polling is the one it returns afterwards, and what that set
    holds then is the peers discovered, also with subscribers
    registered. *)
Theorem get_peerlist_is_live (arrivals : list (list dict)) (w : World) :
  get_peerlist w = (Ok (PeerList.get_state (_peerlist (self w))), w)
  ∧ (get_peerlist (poll arrivals w).2).1
    = Ok (PeerList.get_state (_peerlist (self w)))
  ∧ deref (heap (mem (poll arrivals w).2)) (PeerList.get_state (_peerlist (self w)))
    = peers (poll arrivals w).2.
Proof.
  destruct (poll_always (same_configuration w)) with (arrivals := arrivals) (w := w)
    as (_ & _ & _ & _ & _ & _ & _ & _ & _ & _ & _ & _ & Hst & _).
  - intros pending w' Hw'. eapply same_configuration_trans; [exact Hw'|].
    unfold same_configuration. repeat split; reflexivity.
  - intros msg w' Hw'. eapply same_configuration_trans; [exact Hw'|].
    apply on_message_configuration.
  - apply same_configuration_refl.
  - split; [reflexivity|]. unfold get_peerlist, attr, peers, PeerList.members,
      PeerList.get_state. simpl. by rewrite Hst.
Qed.

End Discovered.

(** * Faulty messages, and the handshake of two nodes *)

Section Messages.

Import Disco After Handshake.

Implicit Types (w : World) (msg : dict).

Lemma poll_on_raise msg e batch rest later w :
  (∀ w', on_message msg w' = (Raise e, w')) →
  _endit (self w) = false →
  Queue.items (_in_queue (self w)) ++ batch = msg :: rest →
  poll (batch :: later) w = (Raise e, holding rest w).
Proof.
  intros Hmsg He Hq. rewrite poll_cons by done. rewrite Hq.
  unfold bind. rewrite for_message_cons, holding_holding. by rewrite Hmsg.
Qed.

(** X8.  A message that lacks a member the loop reads raises [KeyError]
    for that member and changes nothing: no [action]; an action without
    END and no [source]; a REPLY from another node without [reply] (the
    PeerList is not touched).  The error propagates out of [poll], which
    leaves the messages behind it queued. *)
Theorem missing_member_raises_KeyError (msg : dict) (batch rest : list dict)
    (later : list (list dict)) (w : World) :
  (msg !! "action" = None
   ∨ (∃ a, msg !! "action" = Some a ∧ Py.contains "END" a = false
           ∧ msg !! "source" = None)
   ∨ (∃ a source, msg !! "action" = Some a ∧ Py.contains "END" a = false
                  ∧ Py.contains "DISCO" a = false ∧ Py.contains "REPLY" a = true
                  ∧ msg !! "source" = Some source ∧ source ≠ _id (self w)
                  ∧ msg !! "reply" = None)) →
  ∃ key,
    (key = "action" ∨ key = "source" ∨ key = "reply")
    ∧ msg !! key = None
    ∧ on_message msg w = (Raise (KeyError key), w)
    ∧ (_endit (self w) = false →
       Queue.items (_in_queue (self w)) ++ batch = msg :: rest →
       poll (batch :: later) w = (Raise (KeyError key), holding rest w)).
Proof.
  intros [Ha|[(a & Ha & He & Hs)|(a & source & Ha & He & Hd & Hr & Hs & Hne & Hp)]].
  - exists "action". split; [by left|]. split; [done|].
    assert (Hmsg : ∀ w', on_message msg w' = (Raise (KeyError "action"), w')).
    { intros w'. unfold on_message, getitem. by rewrite Ha. }
    split; [apply Hmsg|]. intros. by apply (poll_on_raise msg).
  - exists "source". split; [by right; left|]. split; [done|].
    assert (Hmsg : ∀ w', on_message msg w' = (Raise (KeyError "source"), w')).
    { intros w'. unfold on_message, getitem. rewrite Ha, Hs. run. by rewrite He. }
    split; [apply Hmsg|]. intros. by apply (poll_on_raise msg).
  - exists "reply". split; [by right; right|]. split; [done|].
    assert (Hmsg : ∀ w', _id (self w') = _id (self w) →
                         on_message msg w' = (Raise (KeyError "reply"), w')).
    { intros w' Hid. unfold on_message, getitem. rewrite Ha, Hs, Hp. run.
      rewrite He, Hd, Hr, Hid.
      by destruct (String.eqb_spec (_id (self w)) source) as [Heq|_]; [subst|]. }
    split; [by apply Hmsg|]. intros Hrun Hq.
    rewrite poll_cons by done. rewrite Hq.
    unfold bind. rewrite for_message_cons, holding_holding. by rewrite Hmsg.
Qed.

Lemma missing_member_raises_KeyError_witness :
  let w := Scenario.engine [] in
  let msg : dict := <["action" := "REPLY"]> (<["source" := "B"]> ∅) in
  on_message msg w = (Raise (KeyError "reply"), w).
Proof.
  intros w msg.
  destruct (missing_member_raises_KeyError msg [msg] [] [] w) as (key & Hkey & Hnone & Hmsg & _).
  { right; right. exists "REPLY", "B". repeat split; (reflexivity || discriminate). }
  destruct Hkey as [-> | [-> | ->]]; [discriminate Hnone|discriminate Hnone|exact Hmsg].
Defined.

(** X9.  A DISCO from another node is answered: the engine marks itself
    in discovery and queues a REPLY whose [reply] and [source] members are
    both its own identity, when [produce] takes it; the PeerList and the
    termination flags are as they were, and the loop goes on. *)
Theorem DISCO_is_answered (msg : dict) (a source : string) (w : World) :
  msg !! "action" = Some a →
  Py.contains "END" a = false →
  Py.contains "DISCO" a = true →
  msg !! "source" = Some source →
  source ≠ _id (self w) →
  on_message msg w = (Ok Next, answered w)
  ∧ _in_disco (self (answered w)) = true
  ∧ peers (answered w) = peers w
  ∧ _endit (self (answered w)) = _endit (self w)
  ∧ Queue.items (_out_queue (self (answered w)))
    = Queue.items (_out_queue (self w))
      ++ (if negb (_event (self w)) && negb (Queue.full (_out_queue (self w)))
          then [json_dumps (<["action" := "REPLY"]>
                              (<["reply" := _id (self w)]>
                                 (<["source" := _id (self w)]> ∅)))]
          else []).
Proof.
  intros Ha He Hd Hs Hne.
  destruct (answered_frame w) as (_ & Hend & _ & Hdisco & _ & Hp & Hm & Hout).
  split; [|split; [done|split; [|split; [done|exact Hout]]]].
  - unfold on_message, getitem. rewrite Ha, Hs. run. rewrite He, Hd.
    destruct (String.eqb_spec (_id (self w)) source) as [Heq|_]; [by subst|].
    unfold reply. run. rewrite produce_eq.
    unfold answered, can_produce, in_discovery. cbn.
    by destruct (negb (_event (self w)) && negb (Queue.full (_out_queue (self w)))).
  - unfold peers. by rewrite Hp, Hm.
Qed.

Lemma DISCO_is_answered_witness :
  let w := node "B" in
  let msg := DISCO_dict "A" in
  msg !! "action" = Some "DISCO"
  ∧ msg !! "source" = Some "A"
  ∧ "A" ≠ _id (self w)
  ∧ on_message msg w = (Ok Next, answered w)
  ∧ Queue.items (_out_queue (self (answered w))) = [REPLY_from "B"].
Proof.
  intros w msg.
  assert (Ha : msg !! "action" = Some "DISCO") by reflexivity.
  assert (Hs : msg !! "source" = Some "A") by reflexivity.
  assert (Hne : "A" ≠ _id (self w)) by discriminate.
  split; [exact Ha|]. split; [exact Hs|]. split; [exact Hne|].
  destruct (DISCO_is_answered msg "DISCO" "A" w Ha eq_refl eq_refl Hs Hne)
    as (Hmsg & _ & _ & _ & Hout).
  split; [exact Hmsg|]. rewrite Hout. reflexivity.
Defined.

(** X10.  The handshake composes.  Node A, not yet announced, queues its
    DISCO; node B, on that DISCO, queues a REPLY; node A, on that REPLY,
    adds exactly B's identity to its PeerList. *)
Theorem handshake_adds_the_replier (wA wB : World) :
  no_subscribers wA →
  _id (self wA) ≠ _id (self wB) →
  _in_disco (self wA) = false →
  can_produce wA = true →
  can_produce wB = true →
  ∃ d r,
    Queue.items (_out_queue (self (discovery [] wA).2))
    = Queue.items (_out_queue (self wA)) ++ [json_dumps d]
    ∧ Queue.items (_out_queue (self (on_message d wB).2))
      = Queue.items (_out_queue (self wB)) ++ [json_dumps r]
    ∧ peers (on_message r wA).2 = peers wA ∪ {[_id (self wB)]}.
Proof.
  intros Hno Hne Hdisco HcanA HcanB.
  exists (DISCO_dict (_id (self wA))), (REPLY_dict (_id (self wB))).
  split; [|split].
  - unfold discovery. run. rewrite Hdisco. run. rewrite produce_eq.
    fold (can_produce {| self := set_in_disco true (self wA); mem := mem wA |}).
    change (can_produce {| self := set_in_disco true (self wA); mem := mem wA |})
      with (can_produce wA). rewrite HcanA. cbn.
    by destruct (_endit (self wA)).
  - assert (Hmsg : on_message (DISCO_dict (_id (self wA))) wB = (Ok Next, answered wB)).
    { unfold on_message, getitem, DISCO_dict.
      rewrite lookup_insert_eq, lookup_insert_ne, lookup_insert_eq by done. run.
      destruct (String.eqb_spec (_id (self wB)) (_id (self wA))) as [Heq|_];
        [by rewrite Heq in Hne|].
      unfold reply. run. rewrite produce_eq.
      unfold answered, can_produce, in_discovery. cbn.
      by destruct (negb (_event (self wB)) && negb (Queue.full (_out_queue (self wB)))). }
    rewrite Hmsg. cbn [snd].
    destruct (answered_frame wB) as (_ & _ & _ & _ & _ & _ & _ & Hout).
    by rewrite Hout, HcanB.
  - rewrite (on_message_replied (REPLY_dict (_id (self wB))) (_id (self wB))
               (_id (self wB)) wA); [|done| |congruence].
    + cbn [snd]. by destruct (replied_facts (_id (self wB)) wA Hno) as (Hp & _).
    + unfold is_reply, REPLY_dict.
      rewrite lookup_insert_eq.
      rewrite lookup_insert_ne, lookup_insert_ne, lookup_insert_eq by done.
      rewrite lookup_insert_ne, lookup_insert_eq by done. done.
Qed.

Lemma handshake_adds_the_replier_witness :
  no_subscribers (node "A")
  ∧ _id (self (node "A")) ≠ _id (self (node "B"))
  ∧ ∃ d r,
      Queue.items (_out_queue (self (discovery [] (node "A")).2)) = [json_dumps d]
      ∧ Queue.items (_out_queue (self (on_message d (node "B")).2)) = [json_dumps r]
      ∧ peers (on_message r (node "A")).2 = peers (node "A") ∪ {["B"]}.
Proof.
  assert (H1 : no_subscribers (node "A")) by reflexivity.
  assert (H2 : _id (self (node "A")) ≠ _id (self (node "B"))) by discriminate.
  split; [exact H1|]. split; [exact H2|].
  exact (handshake_adds_the_replier (node "A") (node "B") H1 H2
           eq_refl eq_refl eq_refl).
Defined.

End Messages.

(** * One pass over the inbound queue, discovery and entering *)

Section Loops.

Import Disco After Handshake Scope.

Implicit Types (w : World) (msg : dict).

Lemma for_message_ends pending w :
  Queue.items (_in_queue (self w)) = pending →
  ((for_message pending w).1 = Ok tt
   ∧ Queue.items (_in_queue (self (for_message pending w).2)) = []
   ∧ _endit (self (for_message pending w).2) = _endit (self w)
   ∧ _event (self (for_message pending w).2) = _event (self w))
  ∨ ((for_message pending w).1 = Ok tt
     ∧ _endit (self (for_message pending w).2) = true
     ∧ _event (self (for_message pending w).2) = true
     ∧ (Queue.items (_in_queue (self (for_message pending w).2))
        `suffix_of` pending))
  ∨ ((∃ e, (for_message pending w).1 = Raise e)
     ∧ _endit (self (for_message pending w).2) = _endit (self w)
     ∧ _event (self (for_message pending w).2) = _event (self w)
     ∧ (Queue.items (_in_queue (self (for_message pending w).2))
        `suffix_of` pending)).
Proof.
  revert w. induction pending as [|msg rest IH]; intros w Hq.
  - left. by simpl.
  - rewrite for_message_cons.
    pose proof (on_message_in_queue msg (holding rest w)) as Hin.
    destruct (on_message_flags msg (holding rest w))
      as [(Hr & He & Hv)|(Hr & He & Hv)];
      destruct (on_message msg (holding rest w)) as [r w'] eqn:Hm;
      simpl in Hr, He, Hv, Hin.
    + subst r. right; left. simpl. rewrite Hin. simpl.
      split; [done|]. split; [done|]. split; [done|]. by apply suffix_cons_r.
    + destruct Hr as [[e ->]| ->]; simpl.
      * right; right. rewrite Hin. simpl. split; [by eexists|].
        split; [done|]. split; [done|]. by apply suffix_cons_r.
      * destruct (IH w') as [(A & B & C & D)|[(A & B & C & D)|(A & B & C & D)]].
        { by rewrite Hin. }
        { left. by rewrite C, D. }
        { right; left. split; [done|]. split; [done|]. split; [done|].
          by apply suffix_cons_r. }
        { right; right. rewrite B, C. split; [done|]. split; [done|].
          split; [done|]. by apply suffix_cons_r. }
Qed.

(** X11.  One pass of the [for] loop over [consume()] ends in one of three
    ways: the inbound queue is drained and both flags are as they were; or
    an END was met, both flags are set and the messages behind it stay
    queued, in order; or an exception propagates, the flags are as they
    were and the messages behind the faulty one stay queued.  The pass
    never waits. *)
Theorem consume_drains_or_stops (w : World) :
  ((for_message_in_consume w).1 = Ok tt
   ∧ Queue.items (_in_queue (self (for_message_in_consume w).2)) = []
   ∧ _endit (self (for_message_in_consume w).2) = _endit (self w)
   ∧ _event (self (for_message_in_consume w).2) = _event (self w))
  ∨ ((for_message_in_consume w).1 = Ok tt
     ∧ _endit (self (for_message_in_consume w).2) = true
     ∧ _event (self (for_message_in_consume w).2) = true
     ∧ (Queue.items (_in_queue (self (for_message_in_consume w).2))
        `suffix_of` Queue.items (_in_queue (self w))))
  ∨ ((∃ e, (for_message_in_consume w).1 = Raise e)
     ∧ _endit (self (for_message_in_consume w).2) = _endit (self w)
     ∧ _event (self (for_message_in_consume w).2) = _event (self w)
     ∧ (Queue.items (_in_queue (self (for_message_in_consume w).2))
        `suffix_of` Queue.items (_in_queue (self w)))).
Proof.
  change (for_message_in_consume w)
    with (for_message (Queue.items (_in_queue (self w))) w).
  by apply for_message_ends.
Qed.

Lemma poll_flags_agree arrivals w :
  _endit (self w) = _event (self w) →
  _endit (self (poll arrivals w).2) = _event (self (poll arrivals w).2).
Proof.
  intros Hagree.
  apply (poll_always (λ w', _endit (self w') = _event (self w'))); [done| |done].
  intros msg w' Hw'.
  destruct (on_message_flags msg w') as [(_ & He & Hv)|(_ & He & Hv)]; congruence.
Qed.

Lemma poll_keeps_in_disco arrivals w :
  _in_disco (self w) = true → _in_disco (self (poll arrivals w).2) = true.
Proof.
  apply (poll_always (λ w', _in_disco (self w') = true)); [done|].
  intros msg w' Hw'.
  destruct (on_message_cases msg w')
    as [[e ->]|[->|[->|[->|(source & peer & _ & _ & _ & ->)]]]]; simpl; try done.
  - by destruct (answered_frame w') as (_ & _ & _ & Hd & _).
  - destruct (counted_frame peer w') as (_ & _ & _ & Hd & _). by rewrite Hd.
Qed.

Lemma discovery_eq arrivals w :
  discovery arrivals w
  = poll arrivals (if _in_disco (self w) then w else announced w).
Proof.
  unfold discovery. run. destruct (_in_disco (self w)); run; [done|].
  rewrite produce_eq. cbn. unfold announced, can_produce, in_discovery.
  by destruct (negb (_event (self w)) && negb (Queue.full (_out_queue (self w)))).
Qed.

Lemma announced_frame w :
  _in_disco (self (announced w)) = true
  ∧ _endit (self (announced w)) = _endit (self w)
  ∧ _event (self (announced w)) = _event (self w).
Proof.
  unfold announced. by destruct (can_produce w).
Qed.

(** X12.  [discovery] announces at most once.  An engine that is not in
    discovery queues its DISCO (when [produce] takes it), marks itself and
    polls; one that is already in discovery, by an earlier call or by a
    DISCO it has heard, only polls.  Once [discovery] has returned, any
    further call returns at once and changes nothing. *)
Theorem discovery_announces_once (arrivals : list (list dict)) (w : World) :
  discovery arrivals w
  = poll arrivals (if _in_disco (self w) then w else announced w)
  ∧ Queue.items (_out_queue (self (announced w)))
    = Queue.items (_out_queue (self w))
      ++ (if can_produce w then [DISCO_from (_id (self w))] else [])
  ∧ ∀ w1 arrivals',
      discovery arrivals w = (Ok tt, w1) →
      _in_disco (self w1) = true ∧ discovery arrivals' w1 = (Ok tt, w1).
Proof.
  split; [apply discovery_eq|]. split.
  { unfold announced. destruct (can_produce w); cbn; by rewrite ?app_nil_r. }
  intros w1 arrivals' Hd. rewrite discovery_eq in Hd.
  assert (Hin : _in_disco (self w1) = true).
  { change w1 with (Ok tt, w1).2. rewrite <- Hd. apply poll_keeps_in_disco.
    destruct (_in_disco (self w)) eqn:E; [done|apply announced_frame]. }
  split; [done|]. rewrite discovery_eq, Hin.
  apply poll_stopped. by apply poll_returns_stopped in Hd.
Qed.

Lemma discovery_announces_once_witness :
  let w := node "A" in
  let arrivals := [[Scenario.message "END" "B"]] in
  (discovery arrivals w).1 = Ok tt
  ∧ Queue.items (_out_queue (self (discovery arrivals w).2)) = [DISCO_from "A"]
  ∧ discovery [[Scenario.message "DISCO" "C"]] (discovery arrivals w).2
    = (Ok tt, (discovery arrivals w).2).
Proof.
  intros w arrivals.
  destruct (discovery_announces_once arrivals w) as (_ & _ & Hagain).
  assert (Hok : (discovery arrivals w).1 = Ok tt) by (vm_compute; reflexivity).
  split; [exact Hok|]. split; [vm_compute; reflexivity|].
  apply Hagain. destruct (discovery arrivals w) as [r w1]. simpl in Hok.
  by rewrite Hok.
Defined.

Lemma open_streams_frame w :
  (open_streams w).1 = Ok tt
  ∧ _endit (self (open_streams w).2) = _endit (self w)
  ∧ _event (self (open_streams w).2) = _event (self w)
  ∧ _in_disco (self (open_streams w).2) = _in_disco (self w).
Proof.
  unfold open_streams. destruct w as [d m]. destruct d. cbn.
  repeat (match goal with
          | |- context [match ?x with _ => _ end] =>
              match type of x with
              | option _ => destruct x
              | bool => destruct x
              end
          end; cbn); repeat split; reflexivity.
Qed.

(** X13.  [__enter__] opens the streams and runs [discovery] once.  From
    an engine whose flags agree and whose shutdown signal is unset, it
    ends as that first call of [discovery] ends (its exception
    propagates); when [__enter__] returns, both flags are set, and no
    further round is started.  With the signal already set it returns
    right after opening the streams, without announcing or polling. *)
Theorem enter_runs_discovery_once (arrivals : list (list dict))
    (later : list (list (list dict))) (w : World) :
  _endit (self w) = _event (self w) →
  (_event (self w) = false →
   __enter__ (arrivals :: later) w = discovery arrivals (open_streams w).2
   ∧ ((__enter__ (arrivals :: later) w).1 = Ok tt →
      _endit (self (__enter__ (arrivals :: later) w).2) = true
      ∧ _event (self (__enter__ (arrivals :: later) w).2) = true))
  ∧ (_event (self w) = true →
     __enter__ (arrivals :: later) w = open_streams w).
Proof.
  intros Hagree.
  destruct (open_streams_frame w) as (Hok & He & Hv & Hd).
  unfold __enter__, bind.
  destruct (open_streams w) as [r w0]. simpl in Hok, He, Hv, Hd. subst r.
  split.
  - intros Hunset.
    assert (Hagree1 : ∀ w1 r1, discovery arrivals w0 = (r1, w1) →
                               _endit (self w1) = _event (self w1)).
    { intros w1 r1 Hdw. rewrite discovery_eq in Hdw.
      change w1 with (r1, w1).2. rewrite <- Hdw. apply poll_flags_agree.
      destruct (_in_disco (self w0)); [congruence|].
      destruct (announced_frame w0) as (_ & He' & Hv'). congruence. }
    assert (Hstop : ∀ w1, discovery arrivals w0 = (Ok tt, w1) →
                          _endit (self w1) = true).
    { intros w1 Hdw. rewrite discovery_eq in Hdw.
      by apply poll_returns_stopped in Hdw. }
    simpl. rewrite Hv, Hunset. unfold bind.
    destruct (discovery arrivals w0) as [[[]|e|] w1] eqn:Hdw; simpl.
    + pose proof (Hstop w1 eq_refl) as Hend.
      pose proof (Hagree1 w1 _ eq_refl) as Hag.
      assert (Hev : _event (self w1) = true) by congruence.
      destruct later; simpl; rewrite Hev; simpl; done.
    + done.
    + done.
  - intros Hset. simpl. by rewrite Hv, Hset.
Qed.

Lemma enter_runs_discovery_once_witness :
  let w := node "A" in
  let arrivals := [[REPLY_dict "B"; REPLY_dict "C"]; [Scenario.message "END" "A"]] in
  _endit (self w) = _event (self w)
  ∧ (__enter__ [arrivals; [[REPLY_dict "D"]]] w).1 = Ok tt
  ∧ peers (__enter__ [arrivals; [[REPLY_dict "D"]]] w).2 = {["B"; "C"]}
  ∧ _event (self (__enter__ [arrivals; [[REPLY_dict "D"]]] w).2) = true.
Proof.
  intros w arrivals.
  assert (H : _endit (self w) = _event (self w)) by reflexivity.
  split; [exact H|].
  destruct (enter_runs_discovery_once arrivals [[[REPLY_dict "D"]]] w H) as [Hrun _].
  destruct (Hrun eq_refl) as [Heq Hflags].
  assert (Hok : (__enter__ [arrivals; [[REPLY_dict "D"]]] w).1 = Ok tt).
  { rewrite Heq. vm_compute. reflexivity. }
  split; [exact Hok|]. split.
  - rewrite Heq. vm_compute. reflexivity.
  - exact (proj2 (Hflags Hok)).
Defined.

End Loops.

(** * The streams and the send worker *)

Section Streams.

Import Disco After Handshake Scope.

Implicit Types (w : World) (msg : dict).

Lemma kafka_uri_truthy (b t : string) : Py.truthy (Some (kafka_uri b t)) = true.
Proof. reflexivity. Qed.

(** X14.  Entering an engine constructed with a non-empty broker opens
    the streams that [__init__] computed, the read stream first: for each
    direction whose topic is given and non-empty, "kafka://" + broker +
    "/" + topic in the mode "r" or "w"; a direction without topic opens
    nothing and its stream attribute stays [None]. *)
Theorem enter_opens_the_computed_streams (kw : kwargs) (ip : string) (m : Mem)
    (b : string) :
  kwargs_ok kw = true →
  broker kw = Some b →
  b ≠ "" →
  ∃ d m' w',
    __init__ kw ip m = (Ok d, m')
    ∧ open_streams {| self := d; mem := m' |} = (Ok tt, w')
    ∧ opened (mem w')
      = opened m
        ++ (if Py.truthy (read_topic kw)
            then [(kafka_uri b (default "" (read_topic kw)), "r")] else [])
        ++ (if Py.truthy (write_topic kw)
            then [(kafka_uri b (default "" (write_topic kw)), "w")] else [])
    ∧ _stream_r (self w')
      = (if Py.truthy (read_topic kw)
         then Some (kafka_uri b (default "" (read_topic kw))) else None)
    ∧ _stream_w (self w')
      = (if Py.truthy (write_topic kw)
         then Some (kafka_uri b (default "" (write_topic kw))) else None).
Proof.
  intros _ Hb Hne. apply truthy_Some in Hne.
  pose proof (init_opened kw ip m) as Hopen.
  unfold __init__ in *. destruct (PeerList.__init__ m) as [pl m1].
  rewrite Hb, Hne in *. simpl in Hopen.
  destruct (read_topic kw) as [tr|]; [destruct (Py.truthy (Some tr)) eqn:Er|];
    (destruct (write_topic kw) as [tw|]; [destruct (Py.truthy (Some tw)) eqn:Ew|]);
    (eexists _, _, _; split; [reflexivity|]);
    unfold open_streams; cbn [self mem _stream_uri_r _stream_uri_w];
    rewrite ?stream_uri_r_eq, ?stream_uri_w_eq, ?kafka_uri_truthy;
    cbn [self mem _stream_uri_r _stream_uri_w set_stream_r set_stream_w remake];
    rewrite ?kafka_uri_truthy;
    (split; [reflexivity|]); cbn [Py.truthy default]; rewrite ?Er, ?Ew;
    cbn; rewrite ?Hopen, ?app_nil_r, <- ?app_assoc; repeat split; reflexivity.
Qed.

Lemma enter_opens_the_computed_streams_witness :
  let kw := {| broker := Some "kafka.scimma.org";
               read_topic := Some "snews.operations";
               write_topic := None; auth := None; others := [] |} in
  kwargs_ok kw = true
  ∧ ∃ d m' w',
      __init__ kw "A" Scenario.m0 = (Ok d, m')
      ∧ open_streams {| self := d; mem := m' |} = (Ok tt, w')
      ∧ opened (mem w') = [("kafka://kafka.scimma.org/snews.operations", "r")]
      ∧ _stream_w (self w') = None.
Proof.
  intros kw. split; [reflexivity|].
  destruct (enter_opens_the_computed_streams kw "A" Scenario.m0 "kafka.scimma.org")
    as (d & m' & w' & Hinit & Hopen & Hlog & _ & Hw); [reflexivity|reflexivity|discriminate|].
  exists d, m', w'. split; [exact Hinit|]. split; [exact Hopen|].
  split; [exact Hlog|exact Hw].
Defined.

Lemma send_loop_open (pending : list wire) (d : Disco.t) written uri :
  _event d = false →
  _stream_w d = Some uri →
  send_loop pending d written
  = (Waits, set_out_queue (Queue.with_items [] (_out_queue d)) d
            , written ++ pending)
    ∨ pending = [] ∧ send_loop pending d written = (Waits, d, written).
Proof.
  revert d written. induction pending as [|x rest IH]; intros d written He Hs.
  - right. simpl. by rewrite He.
  - left. simpl. rewrite He. cbn [_stream_w set_out_queue remake]. rewrite Hs.
    assert (Hrec := IH (set_out_queue (Queue.with_items rest (_out_queue d)) d)
                       (written ++ [x]) He Hs).
    destruct Hrec as [Hrec|[-> Hrec]]; rewrite Hrec, <- ?app_assoc; reflexivity.
Qed.

(** X15.  The send worker, when nothing else touches the engine.  With the
    shutdown signal set it returns at once: nothing is written and the
    queue is as it was.  With the signal unset and the write stream open
    it writes the queued messages in queue order and then waits on the
    empty queue.  With the signal unset and no write stream it takes the
    first message off the queue and fails on the write. *)
Theorem send_worker (d : Disco.t) :
  (_event d = true → _send d = (Returns, d, []))
  ∧ (∀ uri, _event d = false → _stream_w d = Some uri →
       (_send d).1.1 = Waits
       ∧ (_send d).2 = Queue.items (_out_queue d)
       ∧ Queue.items (_out_queue (_send d).1.2) = []
       ∧ ∀ x, set_out_queue x (_send d).1.2 = set_out_queue x d)
  ∧ (∀ (first : wire) rest, _event d = false → _stream_w d = None →
       Queue.items (_out_queue d) = first :: rest →
       _send d = (AttributeError,
                  set_out_queue (Queue.with_items rest (_out_queue d)) d, [])).
Proof.
  unfold _send. split; [|split].
  - intros He. destruct (Queue.items (_out_queue d)); simpl; by rewrite He.
  - intros uri He Hs.
    destruct (send_loop_open (Queue.items (_out_queue d)) d [] uri He Hs)
      as [-> | [Hq ->]]; simpl.
    + repeat split; reflexivity.
    + rewrite Hq. repeat split; reflexivity.
  - intros first rest He Hs Hq. rewrite Hq. simpl. rewrite He.
    cbn [_stream_w set_out_queue remake]. by rewrite Hs.
Qed.

Lemma send_worker_witness :
  let w := (poll [[DISCO_dict "B"; REPLY_dict "B"; REPLY_dict "C"]]
              (open_streams (node "A")).2).2 in
  _event (self w) = false
  ∧ _stream_w (self w) = Some "kafka://kafka.scimma.org/snews.operations"
  ∧ (_send (self w)).2 = [REPLY_from "A"; END_from "A"].
Proof.
  intros w.
  assert (He : _event (self w) = false) by (vm_compute; reflexivity).
  assert (Hs : _stream_w (self w) = Some "kafka://kafka.scimma.org/snews.operations")
    by (vm_compute; reflexivity).
  split; [exact He|]. split; [exact Hs|].
  destruct (send_worker (self w)) as (_ & Hopen & _).
  destruct (Hopen _ He Hs) as (_ & Hw & _).
  rewrite Hw. vm_compute. reflexivity.
Defined.

End Streams.

(** * The PeerList and its subscribers *)

Section PeerListMore.

Import PeerList Subscribers.

Implicit Types (m : Mem) (pl : PeerList.t) (callbacks : list Callback).

Lemma for_callback_first callbacks old_state new_state m :
  ∃ new,
    calls (for_callback callbacks old_state new_state m) = calls m ++ new
    ∧ map callee new = callbacks
    ∧ Forall (λ c, ref_old c = old_state ∧ ref_new c = new_state) new
    ∧ (∀ c, head new = Some c →
            seen_old c = deref (heap m) old_state
            ∧ seen_new c = deref (heap m) new_state).
Proof.
  destruct callbacks as [|cb rest]; simpl.
  - exists []. rewrite app_nil_r. by repeat split.
  - destruct (for_callback_calls rest old_state new_state
                (call cb old_state new_state m)) as (new & Hc & Hm & Hf & _).
    eexists (_ :: new). rewrite Hc. simpl. rewrite <- app_assoc. simpl.
    split; [reflexivity|]. split; [by rewrite Hm|]. split.
    + constructor; [by simpl|done].
    + intros c [= <-]. by simpl.
Qed.

(** X16.  Whatever its subscribers do, a mutating call of the PeerList
    calls each of them exactly once, in registration order, all with the
    same two references: a copy that did not exist before the call, and
    the live set.  The first one sees the membership before and after the
    mutation.  The length recorded is that of the set as the call left
    it, before any subscriber ran. *)
Theorem mutation_notifies_every_subscriber (o : op) (pl : PeerList.t) (m : Mem) :
  is_Some (heap m !! _state pl) →
  ∃ old_state new,
    heap m !! old_state = None
    ∧ calls (step o pl m).2 = calls m ++ new
    ∧ map callee new = _callbacks pl
    ∧ Forall (λ c, ref_old c = old_state ∧ ref_new c = get_state pl) new
    ∧ (∀ c, head new = Some c →
            seen_old c = members pl m ∧ seen_new c = effect o (members pl m))
    ∧ _state (step o pl m).1 = _state pl
    ∧ _callbacks (step o pl m).1 = _callbacks pl
    ∧ __len__ (step o pl m).1 = size (effect o (members pl m)).
Proof.
  intros Hlive.
  pose proof (alloc_fresh (deref (heap m) (_state pl)) m) as Hfresh.
  pose proof (alloc_lookup (deref (heap m) (_state pl)) m) as Hcopy.
  pose proof (deref_deepcopy (_state pl) m) as Hsame.
  assert (Hlog : calls (alloc (deref (heap m) (_state pl)) m).2 = calls m)
    by reflexivity.
  assert (Hne : (alloc (deref (heap m) (_state pl)) m).1 ≠ _state pl).
  { intros Heq. rewrite Heq in Hfresh. rewrite Hfresh in Hlive. by destruct Hlive. }
  unfold deepcopy in Hsame.
  destruct o as [peer|peer]; unfold step, add_peer, remove_peer, deepcopy, members,
    _notify, get_state, __len__;
    destruct (alloc (deref (heap m) (_state pl)) m) as [old_state m1];
    cbn [fst snd] in *; cbn [fst snd _state _callbacks _length with_length].
  - destruct (for_callback_first (_callbacks pl) old_state (_state pl)
                (set_add (_state pl) peer m1)) as (new & Hc & Hm & Hf & Hhead).
    exists old_state, new. split; [done|]. split; [by rewrite Hc, <- Hlog|].
    split; [done|]. split; [done|]. split.
    + intros c Hc'. destruct (Hhead c Hc') as [Ho Hn]. rewrite Ho, Hn.
      rewrite deref_set_add, Hsame. split; [|done].
      unfold deref, set_add; simpl. by rewrite lookup_insert_ne, Hcopy.
    + by rewrite deref_set_add, Hsame.
  - destruct (for_callback_first (_callbacks pl) old_state (_state pl)
                (set_discard (_state pl) peer m1)) as (new & Hc & Hm & Hf & Hhead).
    exists old_state, new. split; [done|]. split; [by rewrite Hc, <- Hlog|].
    split; [done|]. split; [done|]. split.
    + intros c Hc'. destruct (Hhead c Hc') as [Ho Hn]. rewrite Ho, Hn.
      rewrite deref_set_discard, Hsame. split; [|done].
      unfold deref, set_discard; simpl. by rewrite lookup_insert_ne, Hcopy.
    + by rewrite deref_set_discard, Hsame.
Qed.

Lemma mutation_notifies_every_subscriber_witness :
  let pl := register_callback Scenario.watcher
              (register_callback Scenario.writer (PeerList.__init__ Scenario.m0).1) in
  let m := (PeerList.__init__ Scenario.m0).2 in
  is_Some (heap m !! _state pl)
  ∧ __len__ (step (Add "B") pl m).1 = 1
  ∧ ∃ new, calls (step (Add "B") pl m).2 = new
           ∧ map callee new = [Scenario.writer; Scenario.watcher].
Proof.
  intros pl m.
  assert (H : is_Some (heap m !! _state pl)) by (by eexists).
  split; [exact H|].
  destruct (mutation_notifies_every_subscriber (Add "B") pl m H)
    as (old_state & new & _ & Hc & Hm & _ & _ & _ & _ & Hlen).
  split; [exact Hlen|]. exists new. split; [exact Hc|exact Hm].
Defined.

(** X17.  With subscribers that mutate no set, adding a peer that is
    already present changes neither the membership nor the length, and
    still notifies every subscriber, with the same membership as old and
    as new state. *)
Theorem add_peer_again_only_notifies (peer : string) (pl : PeerList.t) (m : Mem) :
  is_Some (heap m !! _state pl) →
  Forall passive (_callbacks pl) →
  peer ∈ members pl m →
  members (add_peer peer pl m).1 (add_peer peer pl m).2 = members pl m
  ∧ __len__ (add_peer peer pl m).1 = size (members pl m)
  ∧ ∃ new,
      calls (add_peer peer pl m).2 = calls m ++ new
      ∧ map told new = map (λ cb, (cb, members pl m, members pl m)) (_callbacks pl).
Proof.
  intros Hlive Hp Hin.
  destruct (step_passive (Add peer) pl m Hlive Hp)
    as (_ & _ & Hmem & Hlen & _ & old_state & _ & Hcalls).
  unfold step in Hmem, Hlen, Hcalls. cbn [effect] in Hmem, Hlen, Hcalls.
  assert (Hsame : members pl m ∪ {[peer]} = members pl m).
  { apply leibniz_equiv. intros x. rewrite elem_of_union, elem_of_singleton.
    split; [intros [?| ->]; done|by left]. }
  rewrite Hsame in *. split; [done|]. split; [done|].
  eexists. split; [exact Hcalls|]. by rewrite map_map.
Qed.

Lemma add_peer_again_only_notifies_witness :
  let pl := register_callback Scenario.watcher (PeerList.__init__ Scenario.m0).1 in
  let r := add_peer "B" pl (PeerList.__init__ Scenario.m0).2 in
  is_Some (heap r.2 !! _state r.1)
  ∧ Forall passive (_callbacks r.1)
  ∧ "B" ∈ members r.1 r.2
  ∧ __len__ (add_peer "B" r.1 r.2).1 = size (members r.1 r.2).
Proof.
  intros pl r.
  assert (H1 : is_Some (heap r.2 !! _state r.1)) by (by eexists).
  assert (H2 : Forall passive (_callbacks r.1)) by (repeat constructor).
  assert (H3 : "B" ∈ members r.1 r.2).
  { assert (Hm : members r.1 r.2 = {["B"]}) by (vm_compute; reflexivity).
    rewrite Hm. by apply elem_of_singleton. }
  split; [exact H1|]. split; [exact H2|]. split; [exact H3|].
  exact (proj1 (proj2 (add_peer_again_only_notifies "B" r.1 r.2 H1 H2 H3))).
Defined.

(** X18.  With subscribers that mutate no set, removing a peer that is
    not present raises nothing and leaves the membership and the length
    as they were, and adding a new peer then removing it brings the
    PeerList back to the membership it had. *)
Theorem add_then_remove_restores (peer : string) (pl : PeerList.t) (m : Mem) :
  is_Some (heap m !! _state pl) →
  Forall passive (_callbacks pl) →
  peer ∉ members pl m →
  members (remove_peer peer pl m).1 (remove_peer peer pl m).2 = members pl m
  ∧ __len__ (remove_peer peer pl m).1 = size (members pl m)
  ∧ members (run [Add peer; Remove peer] pl m).1 (run [Add peer; Remove peer] pl m).2
    = members pl m
  ∧ __len__ (run [Add peer; Remove peer] pl m).1 = size (members pl m).
Proof.
  intros Hlive Hp Hout.
  assert (Hrm : members pl m ∖ {[peer]} = members pl m).
  { apply leibniz_equiv. intros x. rewrite elem_of_difference, elem_of_singleton.
    split; [by intros [? _]|]. intros Hx. split; [done|]. by intros ->. }
  assert (Hback : (members pl m ∪ {[peer]}) ∖ {[peer]} = members pl m).
  { apply leibniz_equiv. intros x.
    rewrite elem_of_difference, elem_of_union, elem_of_singleton.
    split; [by intros [[?|?] ?]|]. intros Hx. split; [by left|]. by intros ->. }
  destruct (step_passive (Remove peer) pl m Hlive Hp) as (_ & _ & Hmem & Hlen & _).
  unfold step in Hmem, Hlen. cbn [effect] in Hmem, Hlen. rewrite Hrm in Hmem, Hlen.
  split; [done|]. split; [done|].
  destruct (step_passive (Add peer) pl m Hlive Hp)
    as (Hst & Hcb & Hmem1 & _ & Hlive1 & _).
  unfold step in Hst, Hcb, Hmem1, Hlive1. cbn [effect] in Hmem1. unfold run, step.
  destruct (add_peer peer pl m) as [pl1 m1]. cbn [fst snd] in *.
  assert (Hlive2 : is_Some (heap m1 !! _state pl1)) by by rewrite Hst.
  assert (Hp2 : Forall passive (_callbacks pl1)) by by rewrite Hcb.
  destruct (step_passive (Remove peer) pl1 m1 Hlive2 Hp2)
    as (_ & _ & Hmem2 & Hlen2 & _).
  unfold step in Hmem2, Hlen2. cbn [effect] in Hmem2, Hlen2.
  rewrite Hmem1, Hback in Hmem2, Hlen2.
  destruct (remove_peer peer pl1 m1) as [pl2 m2]. done.
Qed.

Lemma add_then_remove_restores_witness :
  let pl := register_callback Scenario.watcher (PeerList.__init__ Scenario.m0).1 in
  let m := (PeerList.__init__ Scenario.m0).2 in
  is_Some (heap m !! _state pl)
  ∧ Forall passive (_callbacks pl)
  ∧ ("B" ∉ members pl m)
  ∧ members (run [Add "B"; Remove "B"] pl m).1 (run [Add "B"; Remove "B"] pl m).2
    = members pl m.
Proof.
  intros pl m.
  assert (H1 : is_Some (heap m !! _state pl)) by (by eexists).
  assert (H2 : Forall passive (_callbacks pl)) by (repeat constructor).
  assert (H3 : "B" ∉ members pl m).
  { assert (Hm : members pl m = ∅) by (vm_compute; reflexivity).
    rewrite Hm. apply not_elem_of_empty. }
  split; [exact H1|]. split; [exact H2|]. split; [exact H3|].
  exact (proj1 (proj2 (proj2 (add_then_remove_restores "B" pl m H1 H2 H3)))).
Defined.

Lemma list_remove_absent (x : Callback) (l : list Callback) :
  Forall (λ c, same c x = false) l → list_remove x l = None.
Proof.
  induction 1 as [|c l Hc _ IH]; simpl; [done|]. by rewrite Hc, IH.
Qed.

Lemma list_remove_last (x : Callback) (l : list Callback) :
  Forall (λ c, same c x = false) l → list_remove x (l ++ [x]) = Some l.
Proof.
  induction 1 as [|c l Hc _ IH]; simpl.
  - unfold same. by rewrite String.eqb_refl.
  - by rewrite Hc, IH.
Qed.

(** X19.  Deregistering a subscriber that is not registered is an error
    (the [ValueError] of [list.remove]); registering one that is not yet
    there and deregistering it gives the PeerList back as it was; and
    deregistering removes the first registration only: a subscriber
    registered twice stays registered once. *)
Theorem register_then_deregister (callback : Callback) (pl : PeerList.t) :
  Forall (λ c, same c callback = false) (_callbacks pl) →
  deregister_callback callback pl = None
  ∧ deregister_callback callback (register_callback callback pl) = Some pl
  ∧ deregister_callback callback
      (register_callback callback (register_callback callback pl))
    = Some (register_callback callback pl).
Proof.
  intros Hnew. unfold deregister_callback, register_callback. simpl.
  rewrite list_remove_absent, list_remove_last by done.
  split; [done|]. split; [by destruct pl|].
  assert (Hfirst : ∀ l, Forall (λ c, same c callback = false) l →
             list_remove callback ((l ++ [callback]) ++ [callback])
             = Some (l ++ [callback])).
  { induction 1 as [|c l Hc _ IH]; simpl.
    - unfold same. by rewrite String.eqb_refl.
    - by rewrite Hc, IH. }
  by rewrite Hfirst.
Qed.

Lemma register_then_deregister_witness :
  let pl := register_callback Scenario.writer (PeerList.__init__ Scenario.m0).1 in
  Forall (λ c, same c Scenario.watcher = false) (_callbacks pl)
  ∧ deregister_callback Scenario.watcher pl = None
  ∧ deregister_callback Scenario.watcher (register_callback Scenario.watcher pl)
    = Some pl.
Proof.
  intros pl.
  assert (H : Forall (λ c, same c Scenario.watcher = false) (_callbacks pl)).
  { repeat constructor. }
  split; [exact H|].
  destruct (register_then_deregister Scenario.watcher pl H) as (Ha & Hb & _).
  split; [exact Ha|exact Hb].
Defined.

End PeerListMore.

(** * Leaving the scope, and the main program *)

Section Leaving.

Import Disco After Handshake Scope.

(** X20.  An engine leaves its scope cleanly only if both streams were
    opened.  Constructed with a non-empty broker and entered, [__exit__],
    once the workers are joined, goes through exactly when both topics
    were given and non-empty; it then has closed the read stream and the
    write stream, in that order, and set the shutdown signal.  Without a
    read topic it fails before closing anything, and without a write
    topic after closing the read stream; in both cases the shutdown
    signal is not set by it. *)
Theorem exit_needs_both_streams (kw : kwargs) (ip : string) (m : Mem) (b : string) :
  kwargs_ok kw = true →
  broker kw = Some b →
  b ≠ "" →
  ∃ d m' w',
    __init__ kw ip m = (Ok d, m')
    ∧ open_streams {| self := d; mem := m' |} = (Ok tt, w')
    ∧ ((__exit__ (self w')).1.1 = Returns
       ↔ Py.truthy (read_topic kw) = true ∧ Py.truthy (write_topic kw) = true)
    ∧ (Py.truthy (read_topic kw) = true → Py.truthy (write_topic kw) = true →
       __exit__ (self w')
       = (Returns, set_event true (self w'),
          [kafka_uri b (default "" (read_topic kw));
           kafka_uri b (default "" (write_topic kw))]))
    ∧ (Py.truthy (read_topic kw) = false →
       __exit__ (self w') = (AttributeError, self w', []))
    ∧ (Py.truthy (read_topic kw) = true → Py.truthy (write_topic kw) = false →
       __exit__ (self w')
       = (AttributeError, self w', [kafka_uri b (default "" (read_topic kw))])).
Proof.
  intros _ Hb Hne. apply truthy_Some in Hne.
  unfold __init__. destruct (PeerList.__init__ m) as [pl m1].
  rewrite Hb, Hne.
  destruct (read_topic kw) as [tr|]; [destruct (Py.truthy (Some tr)) eqn:Er|];
    (destruct (write_topic kw) as [tw|]; [destruct (Py.truthy (Some tw)) eqn:Ew|]);
    (eexists _, _, _; split; [reflexivity|]);
    unfold open_streams; cbn [self mem _stream_uri_r _stream_uri_w];
    rewrite ?stream_uri_r_eq, ?stream_uri_w_eq, ?kafka_uri_truthy;
    cbn [self mem _stream_uri_r _stream_uri_w set_stream_r set_stream_w remake];
    rewrite ?kafka_uri_truthy;
    (split; [reflexivity|]); cbn [Py.truthy default]; rewrite ?Er, ?Ew;
    unfold __exit__; cbn;
    repeat split; try done; try (by intros []); try (by intros [? ?]).
Qed.

Lemma exit_needs_both_streams_witness :
  let kw := {| broker := Some "kafka.scimma.org";
               read_topic := Some "snews.operations";
               write_topic := None; auth := None; others := [] |} in
  kwargs_ok kw = true
  ∧ ∃ d m' w',
      __init__ kw "A" Scenario.m0 = (Ok d, m')
      ∧ open_streams {| self := d; mem := m' |} = (Ok tt, w')
      ∧ __exit__ (self w')
        = (AttributeError, self w', ["kafka://kafka.scimma.org/snews.operations"]).
Proof.
  intros kw. split; [reflexivity|].
  destruct (exit_needs_both_streams kw "A" Scenario.m0 "kafka.scimma.org")
    as (d & m' & w' & Hinit & Hopen & _ & _ & _ & Hw);
    [reflexivity|reflexivity|discriminate|].
  exists d, m', w'. split; [exact Hinit|]. split; [exact Hopen|].
  apply Hw; reflexivity.
Defined.

End Leaving.

Section MainProgram.

Import Main.

(** X21.  The main program starts the lock process exactly when the
    environment names the host and at least one of the three peers.  The
    node is then the value of HOSTURI, whatever it is, and the peer list
    holds the values of PEERA_URI, PEERB_URI and PEERC_URI that are set,
    in this order, repeated values included.  Otherwise an assertion
    fails. *)
Theorem configuration_needs_host_and_peer (environ : gmap string string) :
  (∀ mynode peerlist,
     configuration environ = Runs mynode peerlist
     ↔ environ !! "HOSTURI" = Some mynode
       ∧ peerlist = omap (λ key, environ !! key) ["PEERA_URI"; "PEERB_URI"; "PEERC_URI"]
       ∧ peerlist ≠ [])
  ∧ (configuration environ = AssertionError
     ↔ environ !! "HOSTURI" = None
       ∨ (environ !! "PEERA_URI" = None ∧ environ !! "PEERB_URI" = None
          ∧ environ !! "PEERC_URI" = None))
  ∧ (∀ mynode peerlist,
       configuration environ = Runs mynode peerlist →
       (1 ≤ length peerlist ≤ 3)%nat).
Proof.
  unfold configuration, read_environment. simpl.
  split; [|split].
  - intros mynode peerlist.
    destruct (environ !! "HOSTURI") as [h|];
      destruct (environ !! "PEERA_URI") as [a|];
      destruct (environ !! "PEERB_URI") as [b|];
      destruct (environ !! "PEERC_URI") as [c|]; simpl;
      (split; [intros H; try discriminate H; injection H as <- <-; done
              |intros (Hh & -> & Hne); try discriminate Hh; try injection Hh as ->; done]).
  - destruct (environ !! "HOSTURI") as [h|];
      destruct (environ !! "PEERA_URI") as [a|];
      destruct (environ !! "PEERB_URI") as [b|];
      destruct (environ !! "PEERC_URI") as [c|]; simpl;
      (split; [intros H; try discriminate H; solve [by left | by right]
              |intros [H|(Ha & Hb & Hc)]; done]).
  - intros mynode peerlist.
    destruct (environ !! "HOSTURI") as [h|];
      destruct (environ !! "PEERA_URI") as [a|];
      destruct (environ !! "PEERB_URI") as [b|];
      destruct (environ !! "PEERC_URI") as [c|]; simpl;
      intros H; try discriminate H; injection H as <- <-; simpl; lia.
Qed.

Lemma configuration_needs_host_and_peer_witness :
  let environ : gmap string string :=
    <["HOSTURI" := "10.0.0.1"]> (<["PEERC_URI" := "10.0.0.3"]>
      (<["PEERA_URI" := "10.0.0.3"]> ∅)) in
  configuration environ = Runs "10.0.0.1" ["10.0.0.3"; "10.0.0.3"]
  ∧ configuration (delete "HOSTURI" environ) = AssertionError.
Proof.
  intros environ. split.
  - apply (proj1 (configuration_needs_host_and_peer environ)).
    split; [reflexivity|]. split; [reflexivity|discriminate].
  - apply (proj1 (proj2 (configuration_needs_host_and_peer (delete "HOSTURI" environ)))).
    left. reflexivity.
Defined.

(** X22.  The monitor logs changes of state and nothing else: every entry
    is a reading with its description from the table, two successive
    entries never carry the same state, the first entry differs from the
    state logged last before, and a reading that differs from the last
    state and is in the table is logged at once. *)
Theorem monitor_logs_changes (statedesc : Z → option string) (readings : list Z)
    (LASTSTATE : option Z) :
  Forall (λ entry, entry.1 ∈ readings ∧ statedesc entry.1 = Some entry.2)
         (monitor statedesc readings LASTSTATE)
  ∧ (∀ i a b,
       monitor statedesc readings LASTSTATE !! i = Some a →
       monitor statedesc readings LASTSTATE !! S i = Some b →
       a.1 ≠ b.1)
  ∧ (∀ a, head (monitor statedesc readings LASTSTATE) = Some a →
          LASTSTATE ≠ Some a.1)
  ∧ (∀ status later description,
       readings = status :: later →
       LASTSTATE ≠ Some status →
       statedesc status = Some description →
       head (monitor statedesc readings LASTSTATE) = Some (status, description)).
Proof.
  revert LASTSTATE. induction readings as [|status later IH]; intros last.
  - simpl. split; [constructor|]. split; [by intros i a b ?|].
    split; [done|]. by intros.
  - simpl. case_bool_decide as Hchange.
    + destruct (statedesc status) as [description|] eqn:Hd.
      * destruct (IH (Some status)) as (Hall & Hadj & Hhead & _).
        split.
        { constructor; [split; [by left|done]|].
          eapply Forall_impl; [exact Hall|]. intros entry [? ?]. split; [by right|done]. }
        split.
        { intros [|i] a b Ha Hb; simpl in Ha, Hb.
          - injection Ha as <-. simpl. intros Heq.
            apply (Hhead b); [by destruct (monitor statedesc later (Some status))|].
            by rewrite Heq.
          - by apply (Hadj i). }
        split.
        { intros a [= <-]. done. }
        { intros s l d [= <- <-] _ Hd'. rewrite Hd in Hd'. by injection Hd' as <-. }
      * split; [constructor|]. split; [by intros i a b ?|]. split; [done|].
        intros s l d [= <- <-] _ Hd'. congruence.
    + destruct (IH last) as (Hall & Hadj & Hhead & _).
      split.
      { eapply Forall_impl; [exact Hall|]. intros entry [? ?]. split; [by right|done]. }
      split; [done|]. split; [done|].
      intros s l d [= <- <-] Hne. by destruct Hchange.
Qed.

Lemma monitor_logs_changes_witness :
  let statedesc (status : Z) : option string :=
    match status with
    | 0%Z => Some "follower"
    | 1%Z => Some "leader"
    | _ => None
    end in
  monitor statedesc [0; 0; 1; 1; 0; 7; 1]%Z None
  = [(0%Z, "follower"); (1%Z, "leader"); (0%Z, "follower")]
  ∧ head (monitor statedesc [0; 0; 1; 1; 0; 7; 1]%Z None) = Some (0%Z, "follower").
Proof.
  intros statedesc. split; [reflexivity|].
  destruct (monitor_logs_changes statedesc [0; 0; 1; 1; 0; 7; 1]%Z None)
    as (_ & _ & _ & Hfirst).
  apply (Hfirst 0%Z [0; 1; 1; 0; 7; 1]%Z "follower"); [reflexivity|discriminate|reflexivity].
Defined.

End MainProgram.
